(** * Configuration composition engine of platoform-pulumi

    A shallow embedding of the deep-merge utility ([src/utils.ts]) and of the
    application orchestrator ([app/app.ts], [app/cicd.ts], [app/deployment.ts],
    [app/scaler.ts]) together with the properties the specification states
    about them. *)

From Stdlib Require Import ZArith String Ascii List Bool Lia DecimalString DecimalNat.
From stdpp Require Import base option list strings gmap.

Open Scope Z_scope.
Open Scope string_scope.
Open Scope list_scope.

(** ** JavaScript values

    Documents handled by the merge are plain data: the primitive values,
    arrays, and plain objects, an object being the list of its own enumerable
    properties in the order they were added.  Numbers are the integers plus
    [NaN].  Members inherited from [Object.prototype] (and the [__proto__]
    setter) are not part of the model, and neither is the rule that
    index-like keys are enumerated before the others: the properties below are
    stated through the value held at a key, or on objects taken in their own
    enumeration order, and where a property reads or assigns the keys of a
    document it is stated for documents whose keys name no inherited member
    ([plain_keys] below). *)

Unset Elimination Schemes.
Inductive value : Type :=
| VUndef
| VNull
| VBool (b : bool)
| VNum (n : Z)
| VNaN
| VStr (s : string)
| VArr (elems : list value)
| VObj (fields : list (string * value)).
Set Elimination Schemes.

Abbreviation props := (list (string * value)).

(** JavaScript truthiness: [!v] is [negb (truthy v)]. *)
Definition truthy (v : value) : bool :=
  match v with
  | VUndef | VNull | VNaN => false
  | VBool b => b
  | VNum n => negb (Z.eqb n 0)
  | VStr s => negb (String.eqb s "")
  | VArr _ | VObj _ => true
  end.

(** [v && typeof v === 'object' && !Array.isArray(v)] *)
Definition is_record (v : value) : bool :=
  match v with
  | VObj _ => true
  | _ => false
  end.

(** The property key of array index [i]. *)
Definition index_key (i : nat) : string :=
  NilEmpty.string_of_uint (Nat.to_uint i).

Fixpoint indexed_from {A : Type} (i : nat) (l : list A) : list (string * A) :=
  match l with
  | [] => []
  | x :: rest => (index_key i, x) :: indexed_from (S i) rest
  end.

(** The UTF-16 units of a string, each as a string of length one. *)
Fixpoint chars (s : string) : list string :=
  match s with
  | EmptyString => []
  | String c rest => String c EmptyString :: chars rest
  end.

(** Own enumerable properties, as enumerated by [{...v}] and [for (key in v)]. *)
Definition own_props (v : value) : props :=
  match v with
  | VObj fields => fields
  | VArr elems => indexed_from 0 elems
  | VStr s => indexed_from 0 (map VStr (chars s))
  | _ => []
  end.

Fixpoint lookup_key {A : Type} (key : string) (ps : list (string * A)) : option A :=
  match ps with
  | [] => None
  | (k, v) :: rest => if String.eqb k key then Some v else lookup_key key rest
  end.

(** [v[key]] for data keys: an own property, or [length], the one
    non-enumerable data property of arrays and strings.  A key that names a
    member of a prototype ([prototype_members] below) reads that member in
    JavaScript when the value has no own property of that name; [get] is
    [v[key]] for every other key, and for every key the value has as its
    own. *)
Definition get (v : value) (key : string) : value :=
  match lookup_key key (own_props v) with
  | Some x => x
  | None =>
      match v with
      | VArr elems => if String.eqb key "length" then VNum (Z.of_nat (length elems)) else VUndef
      | VStr s => if String.eqb key "length" then VNum (Z.of_nat (String.length s)) else VUndef
      | _ => VUndef
      end
  end.

(** [result[key] = v] on an object: an existing property keeps its place, a
    new one is enumerated last.  This is the assignment of JavaScript for
    every key but [__proto__] on an object that has no own property of that
    name, where the assignment sets the prototype and adds no property. *)
Fixpoint obj_set {A : Type} (key : string) (v : A) (ps : list (string * A))
    : list (string * A) :=
  match ps with
  | [] => [(key, v)]
  | (k, x) :: rest =>
      if String.eqb k key then (k, v) :: rest else (k, x) :: obj_set key v rest
  end.

(** [x || {}] *)
Definition or_empty (x : value) : value :=
  if truthy x then x else VObj [].

(** ** [deepMerge] ([src/utils.ts])

    The recursion is on [source]: the recursive call is made on [source[key]]
    only.  The three loops below are the one [for (key in source)] loop, over
    the properties of an object, of an array and of a string. *)
Fixpoint deepMerge (target source : value) {struct source} : value :=
  if negb (truthy source) then target
  else if negb (truthy target) then source
  else
    let result := own_props target in
    match source with
    | VObj fields =>
        VObj
          ((fix loop (fs : props) (result : props) {struct fs} : props :=
              match fs with
              | [] => result
              | (key, v) :: rest =>
                  loop rest
                    (obj_set key
                       (if is_record v
                        then deepMerge (or_empty (get target key)) v
                        else v)
                       result)
              end) fields result)
    | VArr elems =>
        VObj
          ((fix loop (i : nat) (es : list value) (result : props) {struct es} : props :=
              match es with
              | [] => result
              | v :: rest =>
                  loop (S i) rest
                    (obj_set (index_key i)
                       (if is_record v
                        then deepMerge (or_empty (get target (index_key i))) v
                        else v)
                       result)
              end) 0%nat elems result)
    | VStr s =>
        VObj (fold_left (fun result kv => obj_set (fst kv) (snd kv) result)
                (own_props source) result)
    | _ => VObj result
    end.

(** What one iteration assigns to [result[key]], [v] being [source[key]]. *)
Definition merged_at (target : value) (key : string) (v : value) : value :=
  if is_record v then deepMerge (or_empty (get target key)) v else v.

(** One iteration of the loop body. *)
Definition merge_step (target : value) (result : props) (kv : string * value) : props :=
  obj_set (fst kv) (merged_at target (fst kv) (snd kv)) result.

(** A JavaScript object has each of its keys once; [well_formed] says so of
    every object inside a value. *)
Fixpoint well_formed (v : value) : bool :=
  match v with
  | VObj fields =>
      bool_decide (NoDup (map fst fields))
      && forallb (fun kv => well_formed (snd kv)) fields
  | VArr elems => forallb well_formed elems
  | _ => true
  end.

(** [agrees merged override]: [merged] holds what [override] holds, key by
    key through the records of [override], and as a whole where [override]
    is not a record. *)
Fixpoint agrees (merged override : value) {struct override} : Prop :=
  match override with
  | VObj fields =>
      is_record merged = true
      /\ (fix each (fs : props) : Prop :=
            match fs with
            | [] => True
            | (key, v) :: rest => agrees (get merged key) v /\ each rest
            end) fields
  | _ => merged = override
  end.

(** ** Platform types ([app/types.ts]) *)

Record Cluster : Type := {
  platform : string;
  provider : string
}.

Record DeploymentScaler : Type := {
  minReplicas : Z;
  maxReplicas : Z;
  targetCPUUtilization : Z
}.

Record Domain : Type := {
  zone : string;
  subdomain : string
}.

Record ApplicationIngress : Type := {
  domains : list Domain;
  healthCheck : option string;
  annotations : option (list (string * string))
}.

Record DeploymentConfig : Type := {
  cfg_name : option string;
  cfg_image : string;
  cfg_tag : option string;
  cfg_containerPort : option Z;
  cfg_containerOverride : value;
  cfg_deploymentOverride : value;
  cfg_ingress : option ApplicationIngress;
  cfg_scaler : option DeploymentScaler
}.

(** [DeploymentArgs] of [app/deployment.ts]: a deployment config whose name is
    resolved, with the secret reference threaded in by the orchestrator. *)
Record DeploymentArgs : Type := {
  name : string;
  image : string;
  tag : option string;
  containerPort : option Z;
  containerOverride : value;
  deploymentOverride : value;
  ingress : option ApplicationIngress;
  scaler : option DeploymentScaler;
  secrets : option string
}.

(** The argument of [exposeService]:
    [{ ...args, namespace, name, containerPort, ingress }]. *)
Record ExposedServiceArgs : Type := {
  exposed_args : DeploymentArgs;
  exposed_namespace : string;
  exposed_name : string;
  exposed_containerPort : Z;
  exposed_ingress : ApplicationIngress
}.

(** What a deferred [{ name, namespace }] identity resolves to. *)
Record ServiceAccount : Type := {
  sa_name : string;
  sa_namespace : string
}.

Inductive StorageTier : Type := fast | cheap.

Record CicdContext : Type := {
  getDeployServiceAccount : option (Cluster -> option ServiceAccount)
}.

(** The [services] registry of the context is typed [Record<string, Function>]
    and is not read by the orchestrator; it is left out. *)
Record FactoryContext : Type := {
  getStorageClass : Cluster -> StorageTier -> string;
  exposeService : option (Cluster -> ExposedServiceArgs -> value);
  cicd : option CicdContext
}.

Record ServiceArgs : Type := {
  applicationName : string;
  svc_namespace : string;
  svc_cluster : Cluster;
  context : FactoryContext
}.

Definition Service : Type := ServiceArgs -> value.

(** [app.environment]: an environment (any value, absent being [undefined]) or
    a function of the resolved services. *)
Inductive EnvironmentSpec : Type :=
| EnvValue (environment : value)
| EnvFunction (f : value -> value).

(** [app_services] lists the entries of [app.services] as [Object.entries]
    does. *)
Record Application : Type := {
  app_name : string;
  app_namespace : option string;
  app_repository : option string;
  app_environment : EnvironmentSpec;
  app_services : option (list (string * Service));
  app_deployments : option (list DeploymentConfig);
  app_cicd : option bool
}.

(** ** Emitted resources and the composition trace *)

Inductive ResourceKind : Type :=
| Namespace | Secret | Deployment | HorizontalPodAutoscaler | Role | RoleBinding.

(** [new Kind(logical_name, args, { provider, ignoreChanges })] *)
Record Resource : Type := {
  kind : ResourceKind;
  logical_name : string;
  args : value;
  res_provider : string;
  ignoreChanges : list string
}.

(** What a composition does, in the order it does it: resources handed to the
    provisioning engine and calls of the caller's functions. *)
Inductive Event : Type :=
| Emitted (r : Resource)
| ServiceInvoked (service_name : string) (a : ServiceArgs)
| EnvironmentInvoked (services : value)
| GetDeployServiceAccountInvoked (c : Cluster)
| ExposeServiceInvoked (c : Cluster) (a : ExposedServiceArgs).

Definition Trace : Type := list Event.

Inductive Outcome (A : Type) : Type :=
| Returned (a : A)
| Thrown (message : string).
Arguments Returned {A} a.
Arguments Thrown {A} message.

(** Composition code: it extends the trace, and returns or throws. *)
Definition Compose (A : Type) : Type := Trace -> Outcome A * Trace.

Definition ret {A : Type} (a : A) : Compose A := fun t => (Returned a, t).

Definition bind {A B : Type} (m : Compose A) (k : A -> Compose B) : Compose B :=
  fun t =>
    match m t with
    | (Returned a, t') => k a t'
    | (Thrown msg, t') => (Thrown msg, t')
    end.

Definition throw {A : Type} (message : string) : Compose A :=
  fun t => (Thrown message, t).

Definition record_event (e : Event) : Compose unit :=
  fun t => (Returned tt, t ++ [e]).

Definition emit (r : Resource) : Compose unit := record_event (Emitted r).

Declare Scope compose_scope.
Delimit Scope compose_scope with compose.
Notation "'do' x <- m ; k" := (bind m (fun x => k))
  (at level 10, x name, m at level 100, k at level 200) : compose_scope.
Notation "m ;; k" := (bind m (fun _ => k))
  (at level 100, k at level 200, right associativity) : compose_scope.
Open Scope compose_scope.

(** [xs.map(f)] where [f] composes: left to right, stopping at the first
    throw. *)
Fixpoint map_compose {A B : Type} (f : A -> Compose B) (xs : list A) : Compose (list B) :=
  match xs with
  | [] => ret []
  | x :: rest =>
      do y <- f x;
      do ys <- map_compose f rest;
      ret (y :: ys)
  end.

Definition emitted (t : Trace) : list Resource :=
  omap (fun e => match e with Emitted r => Some r | _ => None end) t.

Definition str_truthy (s : string) : bool := negb (String.eqb s "").

Definition num_truthy (n : Z) : bool := negb (Z.eqb n 0).

Definition opt_truthy {A : Type} (truth : A -> bool) (o : option A) : bool :=
  match o with
  | Some a => truth a
  | None => false
  end.

Definition strings (l : list string) : value := VArr (map VStr l).

(** ** [defineScaler] ([app/scaler.ts]) *)
Definition defineScaler (target : string) (scaler : DeploymentScaler)
    (namespace : string) (cluster : Cluster) : Compose DeploymentScaler :=
  emit {| kind := HorizontalPodAutoscaler;
          logical_name := target;
          args := VObj [
            ("metadata", VObj [
               ("name", VStr ("for-" +:+ target));
               ("namespace", VStr namespace);
               ("labels", VObj [("app.kubernetes.io/name", VStr target)])]);
            ("spec", VObj [
               ("scaleTargetRef", VObj [
                  ("apiVersion", VStr "apps/v1");
                  ("kind", VStr "Deployment");
                  ("name", VStr target)]);
               ("minReplicas", VNum (minReplicas scaler));
               ("maxReplicas", VNum (maxReplicas scaler));
               ("metrics", VArr [
                  VObj [("type", VStr "Resource");
                        ("resource", VObj [
                           ("name", VStr "cpu");
                           ("target", VObj [
                              ("type", VStr "Utilization");
                              ("averageUtilization", VNum (targetCPUUtilization scaler))])])]])])];
          res_provider := provider cluster;
          ignoreChanges := [] |};;
  ret scaler.

(** ** [defineCICD] ([app/cicd.ts]) *)

Inductive CicdResult : Type :=
| Skipped
| RoleBound (role_name : value) (subjects : value).

Definition rule (apiGroup resource : string) (verbs : list string) : value :=
  VObj [("apiGroups", strings [apiGroup]);
        ("resources", strings [resource]);
        ("verbs", strings verbs)].

Definition github_role (app : Application) (namespace : string) (cluster : Cluster) : Resource :=
  {| kind := Role;
     logical_name := app_name app +:+ "-github-role";
     args := VObj [
       ("metadata", VObj [("name", VStr "github-deployer"); ("namespace", VStr namespace)]);
       ("rules", VArr [
          rule "apps" "deployments" ["get"; "list"; "patch"; "update"];
          rule "" "pods" ["get"; "list"; "watch"];
          rule "" "pods/log" ["get"; "list"];
          rule "batch" "jobs" ["get"; "list"; "create"; "delete"; "watch"];
          rule "batch" "cronjobs" ["get"; "list"; "patch"; "update"]])];
     res_provider := provider cluster;
     ignoreChanges := [] |}.

Definition subject_of (sa : ServiceAccount) : value :=
  VObj [("kind", VStr "ServiceAccount");
        ("name", VStr (sa_name sa));
        ("namespace", VStr (sa_namespace sa))].

Definition github_binding (app : Application) (namespace : string) (cluster : Cluster)
    (role : Resource) (deployServiceAccount : ServiceAccount) : Resource :=
  {| kind := RoleBinding;
     logical_name := app_name app +:+ "-github-binding";
     args := VObj [
       ("metadata", VObj [("name", VStr "github-deployer"); ("namespace", VStr namespace)]);
       ("subjects", VArr [subject_of deployServiceAccount]);
       ("roleRef", VObj [
          ("kind", VStr "Role");
          ("name", get (get (args role) "metadata") "name");
          ("apiGroup", VStr "rbac.authorization.k8s.io")])];
     res_provider := provider cluster;
     ignoreChanges := [] |}.

Definition defineCICD (app : Application) (namespace : string) (cluster : Cluster)
    (factoryConfig : FactoryContext) : Compose CicdResult :=
  match cicd factoryConfig ≫= getDeployServiceAccount with
  | None => ret Skipped
  | Some getDeployServiceAccount =>
      record_event (GetDeployServiceAccountInvoked cluster);;
      match getDeployServiceAccount cluster with
      | None => ret Skipped
      | Some deployServiceAccount =>
          let role := github_role app namespace cluster in
          emit role;;
          let roleBinding := github_binding app namespace cluster role deployServiceAccount in
          emit roleBinding;;
          ret (RoleBound (get (get (args role) "metadata") "name")
                         (get (args roleBinding) "subjects"))
      end
  end.

(** ** [defineDeployment] ([app/deployment.ts]) *)

Record DeploymentResult : Type := {
  result_name : value;
  result_containerPort : option Z;
  result_ingress : option value;
  result_scaler : option DeploymentScaler
}.

(** A destructuring default applies to [undefined] only. *)
Definition default_to (d v : value) : value :=
  match v with
  | VUndef => d
  | _ => v
  end.

Definition probe_of (containerPort : option Z) (ingress : option ApplicationIngress) : value :=
  match containerPort, ingress ≫= healthCheck with
  | Some port, Some path =>
      if num_truthy port && str_truthy path
      then VObj [("httpGet", VObj [("path", VStr path); ("port", VNum port)])]
      else VUndef
  | _, _ => VUndef
  end.

Definition baseContainer (a : DeploymentArgs) : value :=
  let probe := probe_of (containerPort a) (ingress a) in
  VObj [
    ("name", VStr (name a));
    ("image", VStr (image a +:+ ":" +:+ default "latest" (tag a)));
    ("ports",
      match containerPort a with
      | Some port =>
          if num_truthy port
          then VArr [VObj [("containerPort", VNum port);
                           ("name", VStr "http");
                           ("protocol", VStr "TCP")]]
          else VUndef
      | None => VUndef
      end);
    ("envFrom",
      match secrets a with
      | Some s =>
          if str_truthy s
          then VArr [VObj [("secretRef", VObj [("name", VStr s)])]]
          else VUndef
      | None => VUndef
      end);
    ("livenessProbe", probe);
    ("readinessProbe", probe)].

Definition baseDeployment (a : DeploymentArgs) (namespace : string)
    (mergedContainer : value) : value :=
  let labels := VObj [("app.kubernetes.io/name", VStr (name a))] in
  VObj [
    ("metadata", VObj [
       ("name", VStr (name a));
       ("namespace", VStr namespace);
       ("labels", labels)]);
    ("spec", VObj [
       ("replicas", VNum 1);
       ("selector", VObj [("matchLabels", labels)]);
       ("template", VObj [
          ("metadata", VObj [("labels", labels)]);
          ("spec", VObj [("containers", VArr [mergedContainer])])])])].

Definition finalDeployment (a : DeploymentArgs) (namespace : string) : value :=
  let mergedContainer :=
    deepMerge (baseContainer a) (default_to (VObj []) (containerOverride a)) in
  deepMerge (baseDeployment a namespace mergedContainer)
            (default_to (VObj []) (deploymentOverride a)).

Definition deployment_resource (a : DeploymentArgs) (namespace : string)
    (cluster : Cluster) : Resource :=
  {| kind := Deployment;
     logical_name := name a;
     args := finalDeployment a namespace;
     res_provider := provider cluster;
     ignoreChanges := ["spec.replicas"; "spec.template.spec.containers[0].image"] |}.

Definition missing_port_error (name : string) : string :=
  "Container port must be defined when using ingress for application " +:+ name.

Definition missing_exposeService_error (name : string) : string :=
  "exposeService is required when ingress is configured for deployment " +:+ name.

Definition defineDeployment (a : DeploymentArgs) (namespace : string)
    (cluster : Cluster) (factoryConfig : FactoryContext) : Compose DeploymentResult :=
  if bool_decide (is_Some (ingress a)) && negb (opt_truthy num_truthy (containerPort a))
  then throw (missing_port_error (name a))
  else
    let deployment := deployment_resource a namespace cluster in
    emit deployment;;
    do exposedService <-
      match ingress a, containerPort a with
      | Some ing, Some port =>
          if num_truthy port
          then
            match exposeService factoryConfig with
            | None => throw (missing_exposeService_error (name a))
            | Some expose =>
                let exposed :=
                  {| exposed_args := a;
                     exposed_namespace := namespace;
                     exposed_name := name a;
                     exposed_containerPort := port;
                     exposed_ingress := ing |} in
                record_event (ExposeServiceInvoked cluster exposed);;
                ret (Some (expose cluster exposed))
            end
          else ret None
      | _, _ => ret None
      end;
    do deploymentScaler <-
      match scaler a with
      | Some sc => do r <- defineScaler (name a) sc namespace cluster; ret (Some r)
      | None => ret None
      end;
    ret {| result_name := get (get (args deployment) "metadata") "name";
           result_containerPort := containerPort a;
           result_ingress := exposedService;
           result_scaler := deploymentScaler |}.

(** ** The application orchestrator ([app/app.ts]) *)

Record ApplicationResult : Type := {
  out_namespace : string;
  out_secrets : option string;
  out_services : value;
  out_deployments : list DeploymentResult;
  out_cicd : option CicdResult
}.

(** [app.services || {}], as [Object.entries] lists it. *)
Definition declared_services (app : Application) : list (string * Service) :=
  default [] (app_services app).

(** [app.deployments || []] *)
Definition declared_deployments (app : Application) : list DeploymentConfig :=
  default [] (app_deployments app).

(** [app?.namespace || app.name] *)
Definition namespace_of (app : Application) : string :=
  match app_namespace app with
  | Some ns => if str_truthy ns then ns else app_name app
  | None => app_name app
  end.

Definition namespace_resource (namespace : string) (cluster : Cluster) : Resource :=
  {| kind := Namespace;
     logical_name := namespace;
     args := VObj [("metadata", VObj [("name", VStr namespace)])];
     res_provider := provider cluster;
     ignoreChanges := [] |}.

(** [Object.fromEntries] *)
Definition fromEntries (entries : props) : value :=
  VObj (fold_left (fun o kv => obj_set (fst kv) (snd kv) o) entries []).

Definition service_args (app : Application) (cluster : Cluster)
    (factoryConfig : FactoryContext) : ServiceArgs :=
  {| applicationName := app_name app;
     svc_namespace := namespace_of app;
     svc_cluster := cluster;
     context := factoryConfig |}.

Definition defineServices (app : Application) (cluster : Cluster)
    (factoryConfig : FactoryContext) : Compose (value * value) :=
  do entries <-
    map_compose
      (fun entry : string * Service =>
         let a := service_args app cluster factoryConfig in
         record_event (ServiceInvoked (fst entry) a);;
         ret (fst entry, snd entry a))
      (declared_services app);
  let services := fromEntries entries in
  match app_environment app with
  | EnvFunction f =>
      record_event (EnvironmentInvoked services);;
      ret (services, f services)
  | EnvValue environment => ret (services, environment)
  end.

Definition secret_resource (app : Application) (cluster : Cluster)
    (environment : value) : Resource :=
  {| kind := Secret;
     logical_name := app_name app;
     args := VObj [
       ("stringData", environment);
       ("metadata", VObj [
          ("name", VStr ("for-" +:+ app_name app));
          ("namespace", VStr (namespace_of app))])];
     res_provider := provider cluster;
     ignoreChanges := [] |}.

Definition defineSecrets (app : Application) (cluster : Cluster)
    (environment : value) : Compose (option string) :=
  if negb (truthy environment)
  then ret None
  else
    emit (secret_resource app cluster environment);;
    ret (Some ("for-" +:+ app_name app)).

(** [{ name: app.name, secrets, ...deploymentConfig }] *)
Definition deployment_args (app : Application) (secrets : option string)
    (deploymentConfig : DeploymentConfig) : DeploymentArgs :=
  {| name := default (app_name app) (cfg_name deploymentConfig);
     image := cfg_image deploymentConfig;
     tag := cfg_tag deploymentConfig;
     containerPort := cfg_containerPort deploymentConfig;
     containerOverride := cfg_containerOverride deploymentConfig;
     deploymentOverride := cfg_deploymentOverride deploymentConfig;
     ingress := cfg_ingress deploymentConfig;
     scaler := cfg_scaler deploymentConfig;
     secrets := secrets |}.

Definition defineApplication (app : Application) (cluster : Cluster)
    (factoryConfig : FactoryContext) : Compose ApplicationResult :=
  let namespace := namespace_of app in
  emit (namespace_resource namespace cluster);;
  do se <- defineServices app cluster factoryConfig;
  let services := fst se in
  let environment := snd se in
  do secrets <- defineSecrets app cluster environment;
  do deployments <-
    map_compose
      (fun deploymentConfig =>
         defineDeployment (deployment_args app secrets deploymentConfig)
           namespace cluster factoryConfig)
      (declared_deployments app);
  do cicd <-
    match app_cicd app with
    | Some false => ret None
    | _ => do r <- defineCICD app namespace cluster factoryConfig; ret (Some r)
    end;
  ret {| out_namespace := namespace;
         out_secrets := secrets;
         out_services := services;
         out_deployments := deployments;
         out_cicd := cicd |}.

(** ** [deepMerge] over a store of mutable objects

    The same function with objects and arrays held by reference, so that
    assignments to [result] are writes to a store that the arguments live in
    too.  A store may hold cyclic objects, on which the recursion of
    [deepMerge] does not end; the model takes the recursion depth allowed. *)
Module Store.

Definition loc : Type := nat.

Inductive ref_value : Type :=
| RUndef
| RNull
| RBool (b : bool)
| RNum (n : Z)
| RNaN
| RStr (s : string)
| RRef (l : loc).

Inductive cell : Type :=
| CObj (fields : list (string * ref_value))
| CArr (elems : list ref_value).

Abbreviation store := (gmap loc cell).

Definition truthy (v : ref_value) : bool :=
  match v with
  | RUndef | RNull | RNaN => false
  | RBool b => b
  | RNum n => negb (Z.eqb n 0)
  | RStr s => negb (String.eqb s "")
  | RRef _ => true
  end.


Definition is_record (h : store) (v : ref_value) : bool :=
  match v with
  | RRef l => match h !! l with Some (CObj _) => true | _ => false end
  | _ => false
  end.

Definition own_props (h : store) (v : ref_value) : list (string * ref_value) :=
  match v with
  | RRef l =>
      match h !! l with
      | Some (CObj fields) => fields
      | Some (CArr elems) => indexed_from 0 elems
      | None => []
      end
  | RStr s => indexed_from 0 (map RStr (chars s))
  | _ => []
  end.

Definition get (h : store) (v : ref_value) (key : string) : ref_value :=
  match lookup_key key (own_props h v) with
  | Some x => x
  | None =>
      match v with
      | RRef l =>
          match h !! l with
          | Some (CArr elems) =>
              if String.eqb key "length" then RNum (Z.of_nat (length elems)) else RUndef
          | _ => RUndef
          end
      | RStr s =>
          if String.eqb key "length" then RNum (Z.of_nat (String.length s)) else RUndef
      | _ => RUndef
      end
  end.

(** [new Object] with the given properties. *)
Definition alloc (fields : list (string * ref_value)) (h : store) : loc * store :=
  let l := fresh (dom h) in (l, <[l := CObj fields]> h).

(** [o[key] = v] where [o] is the object at [l]. *)
Definition set (l : loc) (key : string) (v : ref_value) (h : store) : store :=
  match h !! l with
  | Some (CObj fields) => <[l := CObj (obj_set key v fields)]> h
  | _ => h
  end.

(** [x || {}] *)
Definition or_empty (x : ref_value) (h : store) : ref_value * store :=
  if truthy x then (x, h)
  else let (l, h') := alloc [] h in (RRef l, h').

(** The body of the loop, [merge] being [deepMerge] itself. *)
Definition merge_key
    (merge : ref_value -> ref_value -> store -> option (ref_value * store))
    (target source : ref_value) (result : loc) (key : string) (h : store)
    : option store :=
  let v := get h source key in
  if is_record h v
  then
    let (t, h1) := or_empty (get h target key) h in
    match merge t v h1 with
    | Some (m, h2) => Some (set result key m h2)
    | None => None
    end
  else Some (set result key v h).

Fixpoint for_keys (body : string -> store -> option store)
    (keys : list string) (h : store) : option store :=
  match keys with
  | [] => Some h
  | key :: rest =>
      match body key h with
      | Some h' => for_keys body rest h'
      | None => None
      end
  end.

(** [None]: the recursion went deeper than [depth]. *)
Fixpoint deepMerge (depth : nat) (target source : ref_value) (h : store)
    : option (ref_value * store) :=
  match depth with
  | O => None
  | S depth' =>
      if negb (truthy source) then Some (target, h)
      else if negb (truthy target) then Some (source, h)
      else
        let (result, h0) := alloc (own_props h target) h in
        match
          for_keys (merge_key (deepMerge depth') target source result)
            (map fst (own_props h0 source)) h0
        with
        | Some h' => Some (RRef result, h')
        | None => None
        end
  end.

(** The document a stored value stands for, when it is a finite tree of
    depth at most [depth]. *)
Fixpoint read (depth : nat) (h : store) (v : ref_value) : option value :=
  match v with
  | RUndef => Some VUndef
  | RNull => Some VNull
  | RBool b => Some (VBool b)
  | RNum n => Some (VNum n)
  | RNaN => Some VNaN
  | RStr s => Some (VStr s)
  | RRef l =>
      match depth with
      | O => None
      | S depth' =>
          match h !! l with
          | Some (CObj fields) =>
              VObj <$> mapM (fun kv => pair (fst kv) <$> read depth' h (snd kv)) fields
          | Some (CArr elems) => VArr <$> mapM (read depth' h) elems
          | None => None
          end
      end
  end.

End Store.

(** ** Stored values and the documents they stand for *)



(** ** What a run of the orchestrator computes and records *)

Definition service_calls (t : Trace) : list (string * ServiceArgs) :=
  omap (fun e => match e with ServiceInvoked n a => Some (n, a) | _ => None end) t.

Definition environment_calls (t : Trace) : list value :=
  omap (fun e => match e with EnvironmentInvoked s => Some s | _ => None end) t.

Definition of_kind (k : ResourceKind) (r : Resource) : bool :=
  match k, kind r with
  | Namespace, Namespace | Secret, Secret | Deployment, Deployment
  | HorizontalPodAutoscaler, HorizontalPodAutoscaler
  | Role, Role | RoleBinding, RoleBinding => true
  | _, _ => false
  end.

(** The [services] map of [defineServices]. *)
Definition resolved_services (app : Application) (cluster : Cluster)
    (factoryConfig : FactoryContext) : value :=
  fromEntries
    (map (fun entry : string * Service =>
            (fst entry, snd entry (service_args app cluster factoryConfig)))
         (declared_services app)).

(** The [environment] of [defineServices]. *)
Definition computed_environment (app : Application) (cluster : Cluster)
    (factoryConfig : FactoryContext) : value :=
  match app_environment app with
  | EnvFunction f => f (resolved_services app cluster factoryConfig)
  | EnvValue environment => environment
  end.

(** The [secrets] of the orchestrator. *)
Definition secret_reference (app : Application) (environment : value) : option string :=
  if truthy environment then Some ("for-" +:+ app_name app) else None.

(** [appends P m]: whatever the trace before, [m] only adds events, all of
    them satisfying [P]. *)
Definition appends {A : Type} (P : Event -> Prop) (m : Compose A) : Prop :=
  forall t, exists events, snd (m t) = t ++ events /\ Forall P events.

(** Events of the steps after the secret bundle: deployments, then CI/CD. *)
Definition downstream_event (app : Application) (cluster : Cluster)
    (secrets : option string) (e : Event) : Prop :=
  match e with
  | Emitted r =>
      (exists deploymentConfig,
          deploymentConfig ∈ declared_deployments app
          /\ r = deployment_resource (deployment_args app secrets deploymentConfig)
                   (namespace_of app) cluster)
      \/ kind r = HorizontalPodAutoscaler
      \/ kind r = Role
      \/ kind r = RoleBinding
  | ExposeServiceInvoked _ _ | GetDeployServiceAccountInvoked _ => True
  | ServiceInvoked _ _ | EnvironmentInvoked _ => False
  end.

(** The events of the orchestrator's first steps, in order: one call per
    declared service, the call of the environment function, the secret
    bundle. *)
Definition service_events (app : Application) (cluster : Cluster)
    (factoryConfig : FactoryContext) : Trace :=
  map (fun entry : string * Service =>
         ServiceInvoked (fst entry) (service_args app cluster factoryConfig))
      (declared_services app).

Definition environment_events (app : Application) (cluster : Cluster)
    (factoryConfig : FactoryContext) : Trace :=
  match app_environment app with
  | EnvFunction _ => [EnvironmentInvoked (resolved_services app cluster factoryConfig)]
  | EnvValue _ => []
  end.

Definition secret_events (app : Application) (cluster : Cluster)
    (environment : value) : Trace :=
  if truthy environment
  then [Emitted (secret_resource app cluster environment)]
  else [].

(** ** Sample documents and configurations *)

Definition sample_cluster : Cluster := {| platform := "platoform"; provider := "k8s" |}.

Definition bare_context : FactoryContext :=
  {| getStorageClass := fun _ _ => "standard"; exposeService := None; cicd := None |}.

Definition deployer : ServiceAccount := {| sa_name := "deployer"; sa_namespace := "ci" |}.

Definition full_context : FactoryContext :=
  {| getStorageClass := fun _ _ => "standard";
     exposeService := Some (fun _ a => VObj [("service", VStr (exposed_name a))]);
     cicd := Some {| getDeployServiceAccount := Some (fun _ => Some deployer) |} |}.

Definition declining_context : FactoryContext :=
  {| getStorageClass := fun _ _ => "standard";
     exposeService := None;
     cicd := Some {| getDeployServiceAccount := Some (fun _ => None) |} |}.

Definition api_ingress : ApplicationIngress :=
  {| domains := [{| zone := "example.com"; subdomain := "api" |}];
     healthCheck := None;
     annotations := None |}.

Definition api_args (port : option Z) : DeploymentArgs :=
  {| name := "api"; image := "org/app"; tag := Some "v1";
     containerPort := port;
     containerOverride := VUndef; deploymentOverride := VUndef;
     ingress := Some api_ingress;
     scaler := Some {| minReplicas := 2; maxReplicas := 10; targetCPUUtilization := 70 |};
     secrets := None |}.

Definition api_config : DeploymentConfig :=
  {| cfg_name := Some "api"; cfg_image := "org/app"; cfg_tag := Some "v1";
     cfg_containerPort := Some 3000;
     cfg_containerOverride := VUndef; cfg_deploymentOverride := VUndef;
     cfg_ingress := Some api_ingress;
     cfg_scaler := Some {| minReplicas := 2; maxReplicas := 10; targetCPUUtilization := 70 |} |}.

Definition redis_service : Service :=
  fun a => VObj [("url", VStr ("redis://" +:+ applicationName a +:+ "-redis"))].

Definition queue_service : Service :=
  fun a => VObj [("url", VStr ("amqp://" +:+ svc_namespace a))].

Definition web_app (environment : EnvironmentSpec) : Application :=
  {| app_name := "web";
     app_namespace := None;
     app_repository := None;
     app_environment := environment;
     app_services := Some [("redis", redis_service); ("queue", queue_service)];
     app_deployments := Some [api_config];
     app_cicd := Some true |}.

Definition environment_of_services : EnvironmentSpec :=
  EnvFunction (fun services => VObj [("REDIS_URL", get (get services "redis") "url")]).

(** The [api] deployment renamed and scaled by its [deploymentOverride]. *)
Definition overridden_args : DeploymentArgs :=
  {| name := "api"; image := "org/app"; tag := None;
     containerPort := None;
     containerOverride := VUndef;
     deploymentOverride :=
       VObj [("metadata", VObj [("name", VStr "api-v2")]);
             ("spec", VObj [("replicas", VNum 3)])];
     ingress := None;
     scaler := None;
     secrets := None |}.

(** A deployment that asks for ingress without a port. *)
Definition broken_config : DeploymentConfig :=
  {| cfg_name := Some "worker"; cfg_image := "org/worker"; cfg_tag := None;
     cfg_containerPort := None;
     cfg_containerOverride := VUndef; cfg_deploymentOverride := VUndef;
     cfg_ingress := Some api_ingress;
     cfg_scaler := None |}.

Definition broken_app : Application :=
  {| app_name := "web";
     app_namespace := None;
     app_repository := None;
     app_environment := EnvValue VUndef;
     app_services := None;
     app_deployments := Some [api_config; broken_config; api_config];
     app_cicd := None |}.

(** A deployment without ingress, and an application that calls nothing
    from outside. *)
Definition worker_config : DeploymentConfig :=
  {| cfg_name := Some "worker"; cfg_image := "org/worker"; cfg_tag := None;
     cfg_containerPort := None;
     cfg_containerOverride := VUndef; cfg_deploymentOverride := VUndef;
     cfg_ingress := None;
     cfg_scaler := None |}.

Definition static_app : Application :=
  {| app_name := "jobs";
     app_namespace := None;
     app_repository := None;
     app_environment := EnvValue (VObj [("MODE", VStr "batch")]);
     app_services := None;
     app_deployments := Some [worker_config];
     app_cicd := None |}.

Definition quiet_app : Application :=
  {| app_name := "web";
     app_namespace := Some "";
     app_repository := None;
     app_environment := EnvValue VUndef;
     app_services := None;
     app_deployments := Some [api_config];
     app_cicd := Some false |}.

Definition doc1 : value := VObj [("a", VObj [("x", VNum 1); ("y", VNum 2)])].
Definition doc2 : value := VObj [("a", VObj [("y", VNum 9)])].
Definition base_a1 : value := VObj [("a", VNum 1)].
Definition override_a_null : value := VObj [("a", VNull)].
Definition doc_list123 : value := VObj [("list", VArr [VNum 1; VNum 2; VNum 3])].
Definition doc_list9 : value := VObj [("list", VArr [VNum 9])].

(** A store holding [doc1] at location 0 and [doc2] at location 2. *)
Definition sample_store : Store.store :=
  list_to_map [
    (0%nat, Store.CObj [("a", Store.RRef 1%nat)]);
    (1%nat, Store.CObj [("x", Store.RNum 1); ("y", Store.RNum 2)]);
    (2%nat, Store.CObj [("a", Store.RRef 3%nat)]);
    (3%nat, Store.CObj [("y", Store.RNum 9)])].

(** ** Data keys

    The names of the members that plain data inherits: those of
    [Object.prototype], which every object, array and primitive reaches, and
    those of [Array.prototype], [String.prototype], [Number.prototype] and
    [Boolean.prototype] (ECMAScript 2024 with its Annex B).  [length] is not
    among them: it is an own property of arrays and strings, which [get]
    reads. *)
Definition prototype_members : list string :=
  [ (* Object.prototype *)
    "__proto__"; "constructor"; "hasOwnProperty"; "isPrototypeOf";
    "propertyIsEnumerable"; "toLocaleString"; "toString"; "valueOf";
    "__defineGetter__"; "__defineSetter__"; "__lookupGetter__"; "__lookupSetter__";
    (* Array.prototype *)
    "at"; "concat"; "copyWithin"; "entries"; "every"; "fill"; "filter"; "find";
    "findIndex"; "findLast"; "findLastIndex"; "flat"; "flatMap"; "forEach";
    "includes"; "indexOf"; "join"; "keys"; "lastIndexOf"; "map"; "pop"; "push";
    "reduce"; "reduceRight"; "reverse"; "shift"; "slice"; "some"; "sort";
    "splice"; "toReversed"; "toSorted"; "toSpliced"; "unshift"; "values"; "with";
    (* String.prototype *)
    "charAt"; "charCodeAt"; "codePointAt"; "endsWith"; "isWellFormed";
    "localeCompare"; "match"; "matchAll"; "normalize"; "padEnd"; "padStart";
    "repeat"; "replace"; "replaceAll"; "search"; "split"; "startsWith";
    "substring"; "toLocaleLowerCase"; "toLocaleUpperCase"; "toLowerCase";
    "toUpperCase"; "toWellFormed"; "trim"; "trimEnd"; "trimStart";
    "substr"; "anchor"; "big"; "blink"; "bold"; "fixed"; "fontcolor";
    "fontsize"; "italics"; "link"; "small"; "strike"; "sub"; "sup";
    "trimLeft"; "trimRight";
    (* Number.prototype *)
    "toExponential"; "toFixed"; "toPrecision" ].

(** A data key names no inherited member: reading it finds an own property
    or nothing, and assigning it adds or updates an own property. *)
Definition data_key (key : string) : bool :=
  negb (existsb (String.eqb key) prototype_members).

(** [plain_keys v]: the keys of [v], and of the objects [v] holds under its
    keys at any depth, are data keys.  These are the keys [deepMerge] reads
    on its target and assigns on its result when [v] is the source; the
    elements of an array under a key are assigned with the array and are not
    looked into. *)
Fixpoint plain_keys (v : value) : bool :=
  match v with
  | VObj fields => forallb (fun kv => data_key (fst kv) && plain_keys (snd kv)) fields
  | _ => true
  end.

(** ** Paths, composable deployments and the factory's registry *)

(** [v[k1][k2]...[kn]] *)
Definition get_path (v : value) (path : list string) : value :=
  fold_left get path v.

(** An override that changes nothing: [undefined], [null] or [{}]. *)
Definition absent_or_empty (v : value) : bool :=
  match v with
  | VUndef | VNull | VObj [] => true
  | _ => false
  end.

Definition exposure_calls (t : Trace) : list (Cluster * ExposedServiceArgs) :=
  omap (fun e => match e with ExposeServiceInvoked c a => Some (c, a) | _ => None end) t.

Definition cicd_calls (t : Trace) : list Cluster :=
  omap (fun e => match e with GetDeployServiceAccountInvoked c => Some c | _ => None end) t.

(** The argument [exposeService] is called with, when [ingress && containerPort]. *)
Definition exposed_args_of (a : DeploymentArgs) (namespace : string)
    : option ExposedServiceArgs :=
  match ingress a, containerPort a with
  | Some ing, Some port =>
      if num_truthy port
      then Some {| exposed_args := a;
                   exposed_namespace := namespace;
                   exposed_name := name a;
                   exposed_containerPort := port;
                   exposed_ingress := ing |}
      else None
  | _, _ => None
  end.

(** Neither of the two checks of [defineDeployment] fails. *)
Definition composable (a : DeploymentArgs) (factoryConfig : FactoryContext) : bool :=
  match ingress a with
  | None => true
  | Some _ =>
      opt_truthy num_truthy (containerPort a)
      && bool_decide (is_Some (exposeService factoryConfig))
  end.

(** The kinds of the resources a composable deployment emits, in order. *)
Definition deployment_kinds (a : DeploymentArgs) : list ResourceKind :=
  Deployment :: match scaler a with Some _ => [HorizontalPodAutoscaler] | None => [] end.

(** The kinds of the resources [defineCICD] emits. *)
Definition cicd_kinds (cluster : Cluster) (factoryConfig : FactoryContext)
    : list ResourceKind :=
  match cicd factoryConfig ≫= getDeployServiceAccount with
  | Some getAccount =>
      match getAccount cluster with
      | Some _ => [Role; RoleBinding]
      | None => []
      end
  | None => []
  end.

(** [app.cicd !== false] *)
Definition cicd_requested (app : Application) : bool :=
  match app_cicd app with
  | Some false => false
  | _ => true
  end.

(** The [services] of [ApplicationFactory] ([app/index.ts]):
    [{ redis: defineRedis, ...(config.services || {}) }]. *)
Definition ApplicationFactory_services {A : Type} (defineRedis : A)
    (services : option (list (string * A))) : list (string * A) :=
  fold_left (fun o kv => obj_set (fst kv) (snd kv) o)
    (default [] services) [("redis", defineRedis)].

(** [oblivious m]: what [m] returns or throws and what it records do not
    depend on the trace so far. *)
Definition oblivious {A : Type} (m : Compose A) : Prop :=
  forall t, m t = (fst (m []), t ++ snd (m [])).

(** What a composable deployment records after its workload resource: the
    call of [exposeService], if any, and the autoscaler, if any. *)
Definition exposure_events (a : DeploymentArgs) (namespace : string)
    (cluster : Cluster) : Trace :=
  match exposed_args_of a namespace with
  | Some exposed => [ExposeServiceInvoked cluster exposed]
  | None => []
  end.

Definition scaler_events (a : DeploymentArgs) (namespace : string)
    (cluster : Cluster) : Trace :=
  match scaler a with
  | Some sc => snd (defineScaler (name a) sc namespace cluster [])
  | None => []
  end.

(** The events of composing deployments: no call of a service, of the
    environment or of the CI/CD callback, no resource but workloads and
    autoscalers. *)
Definition deployment_event (e : Event) : Prop :=
  match e with
  | Emitted r => kind r = Deployment \/ kind r = HorizontalPodAutoscaler
  | ExposeServiceInvoked _ _ => True
  | _ => False
  end.

(** An event that stays inside namespace [ns]: a resource that is not a
    namespace and is placed in [ns], a service factory called for [ns], a
    service exposed in [ns]. *)
Definition in_namespace (ns : string) (e : Event) : Prop :=
  match e with
  | Emitted r =>
      kind r <> Namespace /\ get_path (args r) ["metadata"; "namespace"] = VStr ns
  | ServiceInvoked _ a => svc_namespace a = ns
  | ExposeServiceInvoked _ exposed => exposed_namespace exposed = ns
  | EnvironmentInvoked _ | GetDeployServiceAccountInvoked _ => True
  end.

(** A reference is bound when the store has an object for it. *)
Definition bound (h : Store.store) (v : Store.ref_value) : Prop :=
  match v with
  | Store.RRef l => is_Some (h !! l)
  | _ => True
  end.

(** * Properties *)

(** ** Values *)

Lemma value_ind (P : value -> Prop) :
  P VUndef -> P VNull -> (forall b, P (VBool b)) -> (forall n, P (VNum n)) ->
  P VNaN -> (forall s, P (VStr s)) ->
  (forall elems, Forall P elems -> P (VArr elems)) ->
  (forall fields, Forall (fun kv => P (snd kv)) fields -> P (VObj fields)) ->
  forall v, P v.
Proof.
  intros Hu Hn Hb Hz Hnan Hs Ha Ho.
  fix IH 1. intros [ | | b | n | | s | elems | fields].
  - exact Hu.
  - exact Hn.
  - apply Hb.
  - apply Hz.
  - exact Hnan.
  - apply Hs.
  - apply Ha. induction elems as [|x elems IHl]; constructor; [apply IH | exact IHl].
  - apply Ho. induction fields as [|[k x] fields IHl]; constructor; [apply IH | exact IHl].
Qed.

Section Properties.
Context {A : Type}.
Implicit Types (ps : list (string * A)) (key k : string) (v : A).

Lemma lookup_key_None key ps :
  lookup_key key ps = None <-> key ∉ map fst ps.
Proof.
  induction ps as [|[k x] ps IH]; simpl.
  - split; [intros _; apply not_elem_of_nil | done].
  - destruct (String.eqb_spec k key) as [->|Hne].
    + split; [done | intros []; left].
    + rewrite IH, not_elem_of_cons. intuition congruence.
Qed.

Lemma lookup_key_elem_of key v ps :
  lookup_key key ps = Some v -> (key, v) ∈ ps.
Proof.
  induction ps as [|[k x] ps IH]; simpl; [done|].
  destruct (String.eqb_spec k key) as [->|Hne].
  - intros [= ->]. left.
  - intros H. right. auto.
Qed.

Lemma lookup_key_NoDup key v ps :
  NoDup (map fst ps) -> (key, v) ∈ ps -> lookup_key key ps = Some v.
Proof.
  induction ps as [|[k x] ps IH]; simpl; intros Hnd Hin.
  - by apply elem_of_nil in Hin.
  - apply NoDup_cons in Hnd as [Hk Hnd].
    apply elem_of_cons in Hin as [[= <- <-]|Hin].
    + by rewrite String.eqb_refl.
    + destruct (String.eqb_spec k key) as [->|Hne]; [|auto].
      exfalso. apply Hk. apply list_elem_of_fmap. by exists (key, v).
Qed.

Lemma lookup_key_obj_set_eq key v ps :
  lookup_key key (obj_set key v ps) = Some v.
Proof.
  induction ps as [|[k x] ps IH]; simpl.
  - by rewrite String.eqb_refl.
  - destruct (String.eqb_spec k key) as [->|Hne]; simpl.
    + by rewrite String.eqb_refl.
    + by destruct (String.eqb_spec k key).
Qed.

Lemma lookup_key_obj_set_ne key k v ps :
  key <> k -> lookup_key k (obj_set key v ps) = lookup_key k ps.
Proof.
  intros Hne. induction ps as [|[k' x] ps IH]; simpl.
  - by destruct (String.eqb_spec key k).
  - destruct (String.eqb_spec k' key) as [->|Hne']; simpl.
    + by destruct (String.eqb_spec key k).
    + by rewrite IH.
Qed.


Lemma keys_obj_set key v ps k :
  k ∈ map fst (obj_set key v ps) <-> k = key \/ k ∈ map fst ps.
Proof.
  induction ps as [|[k' x] ps IH]; simpl.
  - rewrite list_elem_of_singleton. split; [auto|]. intros [|H]; [done|].
    by apply elem_of_nil in H.
  - destruct (String.eqb_spec k' key) as [->|Hne]; simpl.
    + rewrite !elem_of_cons. intuition congruence.
    + rewrite !elem_of_cons, IH. intuition congruence.
Qed.

End Properties.

(** ** The merge as a fold over the properties of [source] *)

Lemma deepMerge_falsy_source target source :
  truthy source = false -> deepMerge target source = target.
Proof. intros H. destruct source; simpl in *; by rewrite ?H. Qed.

Lemma deepMerge_falsy_target target source :
  truthy source = true -> truthy target = false -> deepMerge target source = source.
Proof. intros Hs Ht. destruct source; simpl in *; by rewrite ?Hs, ?Ht. Qed.

Lemma fold_merge_step_strings target (ss : list string) i result :
  fold_left (fun r kv => obj_set (fst kv) (snd kv) r)
    (indexed_from i (map VStr ss)) result
  = fold_left (merge_step target) (indexed_from i (map VStr ss)) result.
Proof.
  revert i result. induction ss as [|c ss IH]; intros i result; simpl; [done|].
  by rewrite IH.
Qed.

Lemma deepMerge_unfold target source :
  truthy source = true -> truthy target = true ->
  deepMerge target source
  = VObj (fold_left (merge_step target) (own_props source) (own_props target)).
Proof.
  intros Hs Ht.
  destruct source as [ | | b | n | | s | elems | fields];
    simpl in Hs; try discriminate; simpl; rewrite ?Hs, Ht; simpl; try done.
  - f_equal. apply fold_merge_step_strings.
  - f_equal. generalize (own_props target) as result. generalize 0%nat as i.
    induction elems as [|v elems IH]; intros i result; simpl; [done|].
    by rewrite IH.
  - f_equal. generalize (own_props target) as result.
    induction fields as [|[k v] fields IH]; intros result; simpl; [done|].
    by rewrite IH.
Qed.

Lemma lookup_fold_merge_step target fs result key :
  NoDup (map fst fs) ->
  lookup_key key (fold_left (merge_step target) fs result)
  = match lookup_key key fs with
    | Some v => Some (merged_at target key v)
    | None => lookup_key key result
    end.
Proof.
  revert result. induction fs as [|[k v] fs IH]; intros result Hnd; simpl; [done|].
  apply NoDup_cons in Hnd as [Hk Hnd]. rewrite (IH _ Hnd). unfold merge_step; simpl.
  destruct (String.eqb_spec k key) as [->|Hne].
  - apply (lookup_key_None key fs) in Hk. by rewrite Hk, lookup_key_obj_set_eq.
  - destruct (lookup_key key fs); [done|]. by apply lookup_key_obj_set_ne.
Qed.

Lemma well_formed_obj fields :
  well_formed (VObj fields) = true ->
  NoDup (map fst fields) /\ Forall (fun kv => well_formed (snd kv) = true) fields.
Proof.
  simpl. intros [Hnd Hall]%andb_prop. split.
  - by apply bool_decide_eq_true in Hnd.
  - apply Forall_forall. intros kv Hin. rewrite forallb_forall in Hall.
    apply Hall. by apply list_elem_of_In.
Qed.

Lemma lookup_deepMerge target fields key :
  truthy target = true -> NoDup (map fst fields) ->
  lookup_key key (own_props (deepMerge target (VObj fields)))
  = match lookup_key key fields with
    | Some v => Some (merged_at target key v)
    | None => lookup_key key (own_props target)
    end.
Proof.
  intros Ht Hnd. rewrite deepMerge_unfold by done. simpl.
  by apply lookup_fold_merge_step.
Qed.

(** ** Agreement with the override *)

Lemma agrees_obj merged fields :
  agrees merged (VObj fields)
  <-> is_record merged = true
      /\ Forall (fun kv => agrees (get merged (fst kv)) (snd kv)) fields.
Proof.
  simpl. apply and_iff_compat_l.
  induction fields as [|[k v] fields IH].
  - split; [constructor | done].
  - rewrite Forall_cons, IH. done.
Qed.

Lemma agrees_not_record merged override :
  is_record override = false -> agrees merged override <-> merged = override.
Proof. by destruct override. Qed.

Lemma get_obj fields key :
  get (VObj fields) key = default VUndef (lookup_key key fields).
Proof. unfold get; simpl. by destruct (lookup_key key fields). Qed.

Lemma agrees_refl v : well_formed v = true -> agrees v v.
Proof.
  induction v as [ | | | | | | elems _ | fields IH] using value_ind; try done.
  intros [Hnd Hwf]%well_formed_obj. apply agrees_obj. split; [done|].
  apply Forall_forall. intros [k x] Hin. simpl.
  rewrite get_obj, (lookup_key_NoDup k x) by done. simpl.
  rewrite Forall_forall in IH, Hwf. by apply (IH (k, x)), (Hwf (k, x)).
Qed.

Lemma agrees_deepMerge override :
  well_formed override = true -> is_record override = true ->
  forall target, agrees (deepMerge target override) override.
Proof.
  induction override as [ | | | | | | elems _ | fields IH] using value_ind; try done.
  intros Hwf _ target. destruct (truthy target) eqn:Ht.
  2:{ rewrite deepMerge_falsy_target by done. by apply agrees_refl. }
  apply well_formed_obj in Hwf as [Hnd Hwf].
  apply agrees_obj. split; [by rewrite deepMerge_unfold|].
  apply Forall_forall. intros [k v] Hin. cbn [fst snd].
  unfold get at 1. rewrite lookup_deepMerge, (lookup_key_NoDup k v) by done.
  unfold merged_at. rewrite Forall_forall in IH, Hwf.
  destruct (is_record v) eqn:Hrec.
  - apply (IH (k, v)); [done | by apply (Hwf (k, v)) | done].
  - by apply agrees_not_record.
Qed.

Lemma own_props_falsy v : truthy v = false -> own_props v = [].
Proof.
  destruct v as [ | | | | | s | | ]; try done.
  simpl. by destruct (String.eqb_spec s "") as [->|].
Qed.

(** Keys absent from the override keep what the base has, whatever the base. *)
Lemma lookup_deepMerge_absent base fields key :
  NoDup (map fst fields) -> lookup_key key fields = None ->
  lookup_key key (own_props (deepMerge base (VObj fields)))
  = lookup_key key (own_props base).
Proof.
  intros Hnd Hkey. destruct (truthy base) eqn:Hb.
  - by rewrite lookup_deepMerge, Hkey.
  - rewrite deepMerge_falsy_target, (own_props_falsy base) by done. done.
Qed.

Lemma lookup_deepMerge_present base fields key v :
  NoDup (map fst fields) -> lookup_key key fields = Some v ->
  lookup_key key (own_props (deepMerge base (VObj fields)))
  = Some (if truthy base then merged_at base key v else v).
Proof.
  intros Hnd Hkey. destruct (truthy base) eqn:Hb.
  - by rewrite lookup_deepMerge, Hkey.
  - by rewrite deepMerge_falsy_target.
Qed.




(** ** Deep-merge claims *)

(** C2, as stated, fails: with base [{a: 1}] and override [{a: null}] the
    override carries an explicit null at key [a], and the merged document
    holds [null] there, not the base's [1]. *)
Lemma null_override_counterexample :
  lookup_key "a" (own_props override_a_null) = Some VNull
  /\ get (deepMerge base_a1 override_a_null) "a" = VNull
  /\ get (deepMerge base_a1 override_a_null) "a" <> get base_a1 "a".
Proof. repeat split. vm_compute. discriminate. Qed.

(** C2, amended: an explicit null at a key of the override, [__proto__]
    apart, replaces the base's value there (the merged document holds null
    at that key); the base's value at a key is left untouched when the
    override does not have the key, and a null or undefined override as a
    whole returns the base unchanged.  The key [__proto__] is left out of the
    first part because assigning it sets the prototype of the result and
    gives it no property. *)
Theorem deepMerge_null_override (base : value) (override : props) (key : string) :
  well_formed (VObj override) = true ->
  (lookup_key key override = Some VNull -> key <> "__proto__" ->
   lookup_key key (own_props (deepMerge base (VObj override))) = Some VNull)
  /\ (lookup_key key override = None ->
      lookup_key key (own_props (deepMerge base (VObj override)))
      = lookup_key key (own_props base))
  /\ deepMerge base VNull = base
  /\ deepMerge base VUndef = base.
Proof.
  intros [Hnd _]%well_formed_obj. repeat split.
  - intros Hkey _. rewrite (lookup_deepMerge_present _ _ _ VNull) by done.
    by destruct (truthy base).
  - by apply lookup_deepMerge_absent.
Qed.

Lemma deepMerge_null_override_witness :
  lookup_key "a" (own_props (deepMerge doc1 override_a_null)) = Some VNull
  /\ lookup_key "b" (own_props (deepMerge doc1 override_a_null))
     = lookup_key "b" (own_props doc1)
  /\ deepMerge doc1 VNull = doc1
  /\ deepMerge doc1 VUndef = doc1.
Proof.
  pose proof (deepMerge_null_override doc1 [("a", VNull)] "a" eq_refl) as (H1 & _ & H3 & H4).
  pose proof (deepMerge_null_override doc1 [("a", VNull)] "b" eq_refl) as (_ & H2 & _).
  split; [apply H1; [reflexivity|discriminate]|].
  split; [apply H2; reflexivity|]. exact (conj H3 H4).
Defined.



Example deepMerge_spec_example :
  deepMerge doc1 doc2 = VObj [("a", VObj [("x", VNum 1); ("y", VNum 9)])].
Proof. reflexivity. Qed.

Example deepMerge_sequence_example : deepMerge doc_list123 doc_list9 = doc_list9.
Proof. reflexivity. Qed.

(** The recursion is decided by the override alone: a record of the override
    is merged into whatever the base holds, an array being taken by its
    indices. *)
Example deepMerge_record_over_array :
  deepMerge (VObj [("a", VArr [VNum 1; VNum 2])]) (VObj [("a", VObj [("x", VNum 1)])])
  = VObj [("a", VObj [("0", VNum 1); ("1", VNum 2); ("x", VNum 1)])].
Proof. reflexivity. Qed.

(** C6: where the override holds a sequence at a key, the merge holds that
    very sequence at the key, whatever the base holds there: the override's
    sequence replaces the base's value and is not combined with it. *)
Theorem deepMerge_sequence_replaced
    (base : value) (override : props) (key : string) (seq : list value) :
  well_formed (VObj override) = true ->
  lookup_key key override = Some (VArr seq) ->
  lookup_key key (own_props (deepMerge base (VObj override))) = Some (VArr seq).
Proof.
  intros [Hnd _]%well_formed_obj Hkey.
  rewrite (lookup_deepMerge_present _ _ _ (VArr seq)) by done.
  by destruct (truthy base).
Qed.

Lemma deepMerge_sequence_replaced_witness :
  lookup_key "list" (own_props (deepMerge doc_list123 doc_list9)) = Some (VArr [VNum 9]).
Proof.
  apply (deepMerge_sequence_replaced doc_list123 (own_props doc_list9) "list" [VNum 9]);
    reflexivity.
Defined.




(** ** Deployment composer *)

Example missing_port_message :
  missing_port_error "api"
  = "Container port must be defined when using ingress for application api".
Proof. reflexivity. Qed.

Example missing_exposeService_message :
  missing_exposeService_error "web"
  = "exposeService is required when ingress is configured for deployment web".
Proof. reflexivity. Qed.

(** C4: a deployment with ingress requested and no container port fails with
    the missing-port error, which names the deployment, and the trace is left
    as it was: nothing is emitted. *)
Theorem defineDeployment_missing_port
    (a : DeploymentArgs) (namespace : string) (cluster : Cluster)
    (factoryConfig : FactoryContext) (t : Trace) :
  is_Some (ingress a) -> containerPort a = None ->
  defineDeployment a namespace cluster factoryConfig t
  = (Thrown ("Container port must be defined when using ingress for application "
             +:+ name a), t).
Proof.
  intros Hingress Hport. unfold defineDeployment.
  rewrite Hport, bool_decide_eq_true_2 by done. reflexivity.
Qed.

Lemma defineDeployment_missing_port_witness :
  defineDeployment (api_args None) "web" sample_cluster full_context []
  = (Thrown "Container port must be defined when using ingress for application api", []).
Proof.
  apply (defineDeployment_missing_port (api_args None) "web" sample_cluster full_context []).
  - by eexists.
  - reflexivity.
Defined.

(** C1, as stated, fails: with ingress requested, container port 3000 and no
    [exposeService] in the context, the composition does throw the
    missing-exposure-callback error, but the deployment's workload resource
    has been emitted by then. *)
Lemma missing_exposeService_counterexample :
  let run := defineDeployment (api_args (Some 3000)) "web" sample_cluster bare_context [] in
  fst run = Thrown (missing_exposeService_error "api")
  /\ emitted (snd run) = [deployment_resource (api_args (Some 3000)) "web" sample_cluster]
  /\ emitted (snd run) <> [].
Proof. repeat split. discriminate. Qed.

(** C1, amended: with ingress requested, a container port set and no
    [exposeService] in the context, the composition fails with the
    missing-exposure-callback error naming the deployment; the one resource
    emitted for the deployment is its workload resource, emitted before the
    check, and nothing is emitted or called after the failure. *)
Theorem defineDeployment_missing_exposeService
    (a : DeploymentArgs) (namespace : string) (cluster : Cluster)
    (factoryConfig : FactoryContext) (t : Trace) (port : Z) :
  is_Some (ingress a) -> containerPort a = Some port -> port <> 0 ->
  exposeService factoryConfig = None ->
  defineDeployment a namespace cluster factoryConfig t
  = (Thrown ("exposeService is required when ingress is configured for deployment "
             +:+ name a),
     t ++ [Emitted (deployment_resource a namespace cluster)]).
Proof.
  intros [ing Hingress] Hport Hnz Hexpose. unfold defineDeployment.
  apply Z.eqb_neq in Hnz.
  unfold opt_truthy, num_truthy, bind, emit, record_event.
  rewrite Hingress, Hport, Hexpose, Hnz. reflexivity.
Qed.

Lemma defineDeployment_missing_exposeService_witness :
  defineDeployment (api_args (Some 3000)) "web" sample_cluster bare_context []
  = (Thrown "exposeService is required when ingress is configured for deployment api",
     [Emitted (deployment_resource (api_args (Some 3000)) "web" sample_cluster)]).
Proof.
  apply (defineDeployment_missing_exposeService
           (api_args (Some 3000)) "web" sample_cluster bare_context [] 3000).
  - by eexists.
  - reflexivity.
  - lia.
  - reflexivity.
Defined.

(** ** CI/CD composer *)

(** C7: without [cicd] or without its [getDeployServiceAccount], and also
    when [getDeployServiceAccount(cluster)] returns null, the composer returns
    the skipped marker and emits nothing; when it returns an identity, the
    composer emits one role and then one role binding, nothing else, and the
    binding's subject is that identity. *)
Theorem defineCICD_skip_semantics
    (app : Application) (namespace : string) (cluster : Cluster)
    (factoryConfig : FactoryContext) (t : Trace) :
  let run := defineCICD app namespace cluster factoryConfig t in
  (cicd factoryConfig ≫= getDeployServiceAccount = None ->
   fst run = Returned Skipped /\ snd run = t)
  /\ (forall getAccount,
        cicd factoryConfig ≫= getDeployServiceAccount = Some getAccount ->
        getAccount cluster = None ->
        fst run = Returned Skipped /\ emitted (snd run) = emitted t)
  /\ (forall getAccount identity,
        cicd factoryConfig ≫= getDeployServiceAccount = Some getAccount ->
        getAccount cluster = Some identity ->
        exists role binding subjects,
          emitted (snd run) = emitted t ++ [role; binding]
          /\ kind role = Role
          /\ kind binding = RoleBinding
          /\ get (args binding) "subjects" = subjects
          /\ subjects
             = VArr [VObj [("kind", VStr "ServiceAccount");
                           ("name", VStr (sa_name identity));
                           ("namespace", VStr (sa_namespace identity))]]
          /\ fst run = Returned (RoleBound (VStr "github-deployer") subjects)).
Proof.
  unfold defineCICD. cbv zeta. split; [|split].
  - by intros ->.
  - intros getAccount -> Hnone. unfold bind, record_event; simpl. rewrite Hnone. simpl.
    split; [done|]. unfold emitted. by rewrite omap_app, app_nil_r.
  - intros getAccount identity -> Hsome. unfold bind, emit, record_event; simpl.
    rewrite Hsome. simpl.
    exists (github_role app namespace cluster).
    exists (github_binding app namespace cluster (github_role app namespace cluster) identity).
    eexists. split; [|repeat split].
    unfold emitted. rewrite !omap_app. simpl. by rewrite app_nil_r, <- app_assoc.
Qed.

Lemma defineCICD_skip_semantics_witness :
  (let run := defineCICD (web_app (EnvValue VUndef)) "web" sample_cluster bare_context [] in
   fst run = Returned Skipped /\ snd run = [])
  /\ (let run := defineCICD (web_app (EnvValue VUndef)) "web" sample_cluster
                   declining_context [] in
      fst run = Returned Skipped /\ emitted (snd run) = emitted [])
  /\ (let run := defineCICD (web_app (EnvValue VUndef)) "web" sample_cluster
                   full_context [] in
      exists role binding subjects,
        emitted (snd run) = emitted [] ++ [role; binding]
        /\ kind role = Role
        /\ kind binding = RoleBinding
        /\ get (args binding) "subjects" = subjects
        /\ subjects
           = VArr [VObj [("kind", VStr "ServiceAccount");
                         ("name", VStr (sa_name deployer));
                         ("namespace", VStr (sa_namespace deployer))]]
        /\ fst run = Returned (RoleBound (VStr "github-deployer") subjects)).
Proof.
  split; [|split].
  - exact (proj1 (defineCICD_skip_semantics (web_app (EnvValue VUndef)) "web"
                    sample_cluster bare_context []) eq_refl).
  - exact (proj1 (proj2 (defineCICD_skip_semantics (web_app (EnvValue VUndef)) "web"
                           sample_cluster declining_context []))
             (fun _ => None) eq_refl eq_refl).
  - exact (proj2 (proj2 (defineCICD_skip_semantics (web_app (EnvValue VUndef)) "web"
                           sample_cluster full_context []))
             (fun _ => Some deployer) deployer eq_refl eq_refl).
Defined.

(** ** Traces of composed steps *)

Section Appends.
Context (P : Event -> Prop).

Lemma appends_ret {A} (a : A) : appends P (ret a).
Proof. intros t. exists []. by rewrite app_nil_r. Qed.

Lemma appends_throw {A} msg : appends P (@throw A msg).
Proof. intros t. exists []. by rewrite app_nil_r. Qed.

Lemma appends_record_event e : P e -> appends P (record_event e).
Proof. intros He t. exists [e]. split; [done|]. by constructor. Qed.

Lemma appends_bind {A B} (m : Compose A) (k : A -> Compose B) :
  appends P m -> (forall a, appends P (k a)) -> appends P (bind m k).
Proof.
  intros Hm Hk t. unfold bind. destruct (Hm t) as (ev1 & Hev1 & HP1).
  destruct (m t) as [[a|msg] t1]; simpl in Hev1; subst t1.
  - destruct (Hk a (t ++ ev1)) as (ev2 & Hev2 & HP2).
    exists (ev1 ++ ev2). rewrite Hev2, app_assoc. split; [done|].
    by apply Forall_app.
  - by exists ev1.
Qed.

Lemma appends_map_compose {A B} (f : A -> Compose B) (xs : list A) :
  (forall x, x ∈ xs -> appends P (f x)) -> appends P (map_compose f xs).
Proof.
  induction xs as [|x xs IH]; intros Hf; simpl.
  - apply appends_ret.
  - apply appends_bind; [apply Hf; left|]. intros y.
    apply appends_bind; [apply IH; intros z Hz; apply Hf; by right|].
    intros ys. apply appends_ret.
Qed.

End Appends.

(** One step through composed code: a leaf of the monad, a bind, or a case
    of the code. *)
Ltac appends_step :=
  first
    [ apply appends_ret
    | apply appends_throw
    | apply appends_record_event
    | apply appends_bind; [|intros ?]
    | case_match ].

Lemma appends_defineScaler P target scaler namespace cluster :
  (forall r, kind r = HorizontalPodAutoscaler -> P (Emitted r)) ->
  appends P (defineScaler target scaler namespace cluster).
Proof. intros HP. unfold defineScaler, emit. repeat appends_step. by apply HP. Qed.

Lemma appends_defineDeployment P a namespace cluster factoryConfig :
  P (Emitted (deployment_resource a namespace cluster)) ->
  (forall r, kind r = HorizontalPodAutoscaler -> P (Emitted r)) ->
  (forall c x, P (ExposeServiceInvoked c x)) ->
  appends P (defineDeployment a namespace cluster factoryConfig).
Proof.
  intros Hdeployment Hscaler Hexpose. unfold defineDeployment, emit.
  repeat appends_step; auto using appends_defineScaler.
Qed.

Lemma appends_defineCICD P app namespace cluster factoryConfig :
  (forall r, kind r = Role \/ kind r = RoleBinding -> P (Emitted r)) ->
  (forall c, P (GetDeployServiceAccountInvoked c)) ->
  appends P (defineCICD app namespace cluster factoryConfig).
Proof.
  intros Hrole Hcall. unfold defineCICD, emit.
  repeat appends_step; auto.
Qed.

(** ** The first steps of the orchestrator, event by event *)

Lemma run_service_calls (a : ServiceArgs) (services : list (string * Service)) t :
  map_compose
    (fun entry : string * Service =>
       record_event (ServiceInvoked (fst entry) a);; ret (fst entry, snd entry a))
    services t
  = (Returned (map (fun entry : string * Service => (fst entry, snd entry a)) services),
     t ++ map (fun entry : string * Service => ServiceInvoked (fst entry) a) services).
Proof.
  revert t. induction services as [|[n svc] services IH]; intros t; simpl.
  - unfold ret. by rewrite app_nil_r.
  - unfold bind at 1. unfold bind at 1. unfold record_event at 1. simpl.
    unfold bind at 1. rewrite IH. unfold ret. simpl. by rewrite <- app_assoc.
Qed.

Lemma run_defineServices app cluster factoryConfig t :
  defineServices app cluster factoryConfig t
  = (Returned (resolved_services app cluster factoryConfig,
               computed_environment app cluster factoryConfig),
     t ++ service_events app cluster factoryConfig
       ++ environment_events app cluster factoryConfig).
Proof.
  unfold defineServices, bind at 1.
  rewrite run_service_calls.
  unfold computed_environment, environment_events, resolved_services, service_events.
  destruct (app_environment app) as [environment|f].
  - unfold ret. by rewrite app_nil_r.
  - unfold bind, record_event, ret. simpl. by rewrite <- app_assoc.
Qed.

Lemma run_defineSecrets app cluster environment t :
  defineSecrets app cluster environment t
  = (Returned (secret_reference app environment),
     t ++ secret_events app cluster environment).
Proof.
  unfold defineSecrets, secret_reference, secret_events.
  destruct (truthy environment); simpl.
  - reflexivity.
  - unfold ret. by rewrite app_nil_r.
Qed.

(** ** The whole trace of the orchestrator *)

Lemma defineApplication_trace app cluster factoryConfig t :
  let environment := computed_environment app cluster factoryConfig in
  exists rest,
    snd (defineApplication app cluster factoryConfig t)
    = t ++ Emitted (namespace_resource (namespace_of app) cluster)
        :: service_events app cluster factoryConfig
        ++ environment_events app cluster factoryConfig
        ++ secret_events app cluster environment
        ++ rest
    /\ Forall (downstream_event app cluster (secret_reference app environment)) rest.
Proof.
  intros environment. unfold defineApplication. cbv zeta.
  unfold bind at 1, emit at 1, record_event at 1. cbv beta iota.
  unfold bind at 1. rewrite run_defineServices. cbv beta iota. cbn [fst snd].
  unfold bind at 1. rewrite run_defineSecrets. cbv beta iota.
  fold environment. set (secrets := secret_reference app environment).
  match goal with
  | |- context [snd (?m ?t1)] =>
      assert (appends (downstream_event app cluster secrets) m) as Hrest;
      [|destruct (Hrest t1) as (rest & -> & Hall); exists rest; split; [|done];
        by rewrite <- !app_assoc]
  end.
  apply appends_bind.
  { apply appends_map_compose. intros deploymentConfig Hin.
    apply appends_defineDeployment.
    - left. by exists deploymentConfig.
    - intros r Hr. right. by left.
    - done. }
  intros deployments. apply appends_bind; [|intros; apply appends_ret].
  assert (appends (downstream_event app cluster secrets)
            (defineCICD app (namespace_of app) cluster factoryConfig)) as Hcicd.
  { apply appends_defineCICD; [|done]. intros r [Hr|Hr]; right; right; [by left|by right]. }
  destruct (app_cicd app) as [[|]|].
  - apply appends_bind; [done|]. intros; apply appends_ret.
  - apply appends_ret.
  - apply appends_bind; [done|]. intros; apply appends_ret.
Qed.

Lemma defineApplication_result app cluster factoryConfig t result :
  fst (defineApplication app cluster factoryConfig t) = Returned result ->
  out_namespace result = namespace_of app
  /\ out_services result = resolved_services app cluster factoryConfig
  /\ out_secrets result
     = secret_reference app (computed_environment app cluster factoryConfig).
Proof.
  unfold defineApplication. cbv zeta.
  unfold bind at 1, emit at 1, record_event at 1. cbv beta iota.
  unfold bind at 1. rewrite run_defineServices. cbv beta iota. cbn [fst snd].
  unfold bind at 1. rewrite run_defineSecrets. cbv beta iota.
  unfold bind at 1. destruct (map_compose _ _ _) as [[deployments|msg] t1]; [|done].
  unfold bind at 1. destruct (match app_cicd app with _ => _ end t1) as [[c|msg] t2]; [|done].
  unfold ret. by intros [= <-].
Qed.

Lemma downstream_calls app cluster secrets rest :
  Forall (downstream_event app cluster secrets) rest ->
  service_calls rest = [] /\ environment_calls rest = []
  /\ List.filter (of_kind Secret) (emitted rest) = [].
Proof.
  induction 1 as [|e rest He _ (IH1 & IH2 & IH3)]; [done|].
  destruct e as [r| | | | ]; try done. simpl. split; [done|]. split; [done|].
  unfold emitted in *. simpl. rewrite IH3.
  destruct He as [(cfg & _ & ->)|[Hk|[Hk|Hk]]]; [done| | | ];
    unfold of_kind; by rewrite Hk.
Qed.

Lemma service_calls_app t1 t2 : service_calls (t1 ++ t2) = service_calls t1 ++ service_calls t2.
Proof. apply omap_app. Qed.

Lemma environment_calls_app t1 t2 :
  environment_calls (t1 ++ t2) = environment_calls t1 ++ environment_calls t2.
Proof. apply omap_app. Qed.

Lemma emitted_app t1 t2 : emitted (t1 ++ t2) = emitted t1 ++ emitted t2.
Proof. apply omap_app. Qed.

Lemma calls_of_service_events app cluster factoryConfig :
  service_calls (service_events app cluster factoryConfig)
  = map (fun entry : string * Service => (fst entry, service_args app cluster factoryConfig))
        (declared_services app)
  /\ environment_calls (service_events app cluster factoryConfig) = []
  /\ emitted (service_events app cluster factoryConfig) = [].
Proof.
  unfold service_events. induction (declared_services app) as [|[n svc] l (IH1 & IH2 & IH3)];
    [done|]. simpl. unfold service_calls in *. simpl. by rewrite IH1.
Qed.

Lemma calls_of_environment_events app cluster factoryConfig :
  service_calls (environment_events app cluster factoryConfig) = []
  /\ emitted (environment_events app cluster factoryConfig) = [].
Proof. unfold environment_events. by destruct (app_environment app). Qed.

Lemma calls_of_secret_events app cluster environment :
  service_calls (secret_events app cluster environment) = []
  /\ environment_calls (secret_events app cluster environment) = []
  /\ List.filter (of_kind Secret) (emitted (secret_events app cluster environment))
     = if truthy environment then [secret_resource app cluster environment] else [].
Proof. unfold secret_events. by destruct (truthy environment). Qed.

Lemma downstream_deployments app cluster secrets rest r :
  Forall (downstream_event app cluster secrets) rest ->
  r ∈ emitted rest -> kind r = Deployment ->
  exists deploymentConfig,
    deploymentConfig ∈ declared_deployments app
    /\ r = deployment_resource (deployment_args app secrets deploymentConfig)
             (namespace_of app) cluster.
Proof.
  intros Hall Hin Hkind. apply list_elem_of_omap in Hin as (e & He & Hr).
  rewrite Forall_forall in Hall. specialize (Hall e He).
  destruct e as [r'| | | | ]; try done. injection Hr as ->.
  destruct Hall as [Hcfg|[Hk|[Hk|Hk]]]; [done| | | ]; congruence.
Qed.

(** ** Orchestrator claims *)

(** C3, as stated, fails: with the empty mapping [{}] as environment, a
    secret bundle is emitted all the same and its reference is handed to the
    deployments. *)
Lemma empty_environment_counterexample :
  let app := web_app (EnvValue (VObj [])) in
  let run := defineApplication app sample_cluster full_context [] in
  computed_environment app sample_cluster full_context = VObj []
  /\ List.filter (of_kind Secret) (emitted (snd run))
     = [secret_resource app sample_cluster (VObj [])]
  /\ List.filter (of_kind Secret) (emitted (snd run)) <> []
  /\ exists result, fst run = Returned result /\ out_secrets result = Some "for-web".
Proof.
  cbv zeta. split; [reflexivity|]. split; [reflexivity|]. split; [discriminate|].
  eexists. split; reflexivity.
Qed.

(** C3, amended: if the computed environment is present (any value that is
    not undefined, null or otherwise falsy; the empty mapping is present),
    exactly one secret bundle is emitted, under the application's name and
    named [for-<application name>], with the environment as its payload, and
    the deployments are composed with its reference; if the environment is
    absent, no secret bundle is emitted and the deployments are composed with
    no secret reference. *)
Theorem defineApplication_secret_bundle
    (app : Application) (cluster : Cluster) (factoryConfig : FactoryContext) :
  let environment := computed_environment app cluster factoryConfig in
  let run := defineApplication app cluster factoryConfig [] in
  let secrets :=
    if truthy environment then Some ("for-" +:+ app_name app) else None in
  List.filter (of_kind Secret) (emitted (snd run))
  = (if truthy environment
     then [ {| kind := Secret;
               logical_name := app_name app;
               args := VObj [
                 ("stringData", environment);
                 ("metadata", VObj [
                    ("name", VStr ("for-" +:+ app_name app));
                    ("namespace", VStr (namespace_of app))])];
               res_provider := provider cluster;
               ignoreChanges := [] |} ]
     else [])
  /\ (forall r, r ∈ emitted (snd run) -> kind r = Deployment ->
        exists deploymentConfig,
          deploymentConfig ∈ declared_deployments app
          /\ r = deployment_resource (deployment_args app secrets deploymentConfig)
                   (namespace_of app) cluster)
  /\ (forall result, fst run = Returned result -> out_secrets result = secrets).
Proof.
  intros environment run secrets.
  destruct (defineApplication_trace app cluster factoryConfig []) as (rest & Htrace & Hrest).
  fold environment in Htrace, Hrest. fold run in Htrace. simpl in Htrace.
  pose proof (calls_of_service_events app cluster factoryConfig) as (_ & _ & Hsvc).
  pose proof (calls_of_environment_events app cluster factoryConfig) as (_ & Henv).
  pose proof (calls_of_secret_events app cluster environment) as (_ & _ & Hsec).
  pose proof (downstream_calls _ _ _ _ Hrest) as (_ & _ & Hdown).
  assert (emitted (snd run)
          = namespace_resource (namespace_of app) cluster
              :: emitted (secret_events app cluster environment) ++ emitted rest) as Hemitted.
  { rewrite Htrace. change (emitted (Emitted ?r :: ?l)) with (r :: emitted l).
    by rewrite !emitted_app, Hsvc, Henv. }
  split; [|split].
  - rewrite Hemitted. simpl. by rewrite List.filter_app, Hsec, Hdown, app_nil_r.
  - intros r Hin Hkind. rewrite Hemitted in Hin.
    apply elem_of_cons in Hin as [->|Hin]; [done|].
    apply elem_of_app in Hin as [Hin|Hin].
    + unfold secret_events in Hin. destruct (truthy environment).
      * apply list_elem_of_singleton in Hin as ->. done.
      * by apply elem_of_nil in Hin.
    + by apply (downstream_deployments app cluster _ rest).
  - intros result Hresult.
    by apply defineApplication_result in Hresult as (_ & _ & ->).
Qed.

Lemma defineApplication_secret_bundle_witness :
  let run :=
    defineApplication (web_app environment_of_services) sample_cluster full_context [] in
  List.filter (of_kind Secret) (emitted (snd run))
  = [ {| kind := Secret;
         logical_name := "web";
         args := VObj [
           ("stringData", VObj [("REDIS_URL", VStr "redis://web-redis")]);
           ("metadata", VObj [("name", VStr "for-web"); ("namespace", VStr "web")])];
         res_provider := "k8s";
         ignoreChanges := [] |} ]
  /\ (forall result, fst run = Returned result -> out_secrets result = Some "for-web").
Proof.
  pose proof (defineApplication_secret_bundle
                (web_app environment_of_services) sample_cluster full_context)
    as (Hsecret & _ & Hreference).
  exact (conj Hsecret Hreference).
Defined.

Example absent_environment_no_secret :
  let run := defineApplication (web_app (EnvValue VUndef)) sample_cluster full_context [] in
  List.filter (of_kind Secret) (emitted (snd run)) = []
  /\ map kind (emitted (snd run))
     = [Namespace; Deployment; HorizontalPodAutoscaler; Role; RoleBinding].
Proof. split; reflexivity. Qed.

(** C8: in one run of the orchestrator the service constructors are called
    once each, in the order the services are declared; the result's services
    map is the map of what they returned; and an environment function is
    called once, after every service constructor and before anything else is
    called, with that very map; what it returns is, when present, the payload
    of the one secret bundle. *)
Theorem defineApplication_invocation_order
    (app : Application) (cluster : Cluster) (factoryConfig : FactoryContext) :
  let run := defineApplication app cluster factoryConfig [] in
  let services := resolved_services app cluster factoryConfig in
  service_calls (snd run)
  = map (fun entry : string * Service =>
           (fst entry,
            {| applicationName := app_name app;
               svc_namespace := namespace_of app;
               svc_cluster := cluster;
               context := factoryConfig |}))
        (declared_services app)
  /\ (forall result, fst run = Returned result -> out_services result = services)
  /\ (forall f, app_environment app = EnvFunction f ->
        environment_calls (snd run) = [services]
        /\ (exists before after,
              snd run = before ++ EnvironmentInvoked services :: after
              /\ service_calls before = service_calls (snd run)
              /\ service_calls after = [])
        /\ (truthy (f services) = true ->
            exists secret,
              List.filter (of_kind Secret) (emitted (snd run)) = [secret]
              /\ get (args secret) "stringData" = f services)).
Proof.
  intros run services.
  destruct (defineApplication_trace app cluster factoryConfig []) as (rest & Htrace & Hrest).
  fold run in Htrace. simpl in Htrace.
  set (environment := computed_environment app cluster factoryConfig) in *.
  pose proof (calls_of_service_events app cluster factoryConfig) as (Hsvc1 & Hsvc2 & Hsvc3).
  pose proof (calls_of_environment_events app cluster factoryConfig) as (Henv1 & Henv3).
  pose proof (calls_of_secret_events app cluster environment) as (Hsec1 & Hsec2 & Hsec3).
  pose proof (downstream_calls _ _ _ _ Hrest) as (Hdown1 & Hdown2 & Hdown3).
  assert (service_calls (snd run)
          = service_calls (service_events app cluster factoryConfig)) as Hcalls.
  { rewrite Htrace. change (service_calls (Emitted ?r :: ?l)) with (service_calls l).
    by rewrite !service_calls_app, Henv1, Hsec1, Hdown1, !app_nil_r. }
  split; [|split].
  - by rewrite Hcalls, Hsvc1.
  - intros result Hresult.
    by apply defineApplication_result in Hresult as (_ & -> & _).
  - intros f Hf.
    assert (environment_events app cluster factoryConfig = [EnvironmentInvoked services])
      as Hevent.
    { unfold environment_events. by rewrite Hf. }
    assert (environment = f services) as Henvironment.
    { unfold environment, computed_environment. by rewrite Hf. }
    rewrite Hevent in Htrace. split; [|split].
    + rewrite Htrace.
      change (environment_calls (Emitted ?r :: ?l)) with (environment_calls l).
      rewrite !environment_calls_app, Hsvc2, Hsec2, Hdown2. done.
    + exists (Emitted (namespace_resource (namespace_of app) cluster)
                :: service_events app cluster factoryConfig).
      exists (secret_events app cluster environment ++ rest).
      split; [|split].
      * by rewrite Htrace.
      * by rewrite Hcalls.
      * by rewrite service_calls_app, Hsec1, Hdown1.
    + intros Htruthy. exists (secret_resource app cluster environment).
      split; [|by rewrite Henvironment].
      rewrite Htrace. change (emitted (Emitted ?r :: ?l)) with (r :: emitted l).
      rewrite !emitted_app, Hsvc3. simpl.
      rewrite List.filter_app, Hsec3, Hdown3, app_nil_r.
      by rewrite Henvironment, Htruthy.
Qed.

Lemma defineApplication_invocation_order_witness :
  let app := web_app environment_of_services in
  let run := defineApplication app sample_cluster full_context [] in
  let services := resolved_services app sample_cluster full_context in
  services = VObj [("redis", VObj [("url", VStr "redis://web-redis")]);
                   ("queue", VObj [("url", VStr "amqp://web")])]
  /\ map fst (service_calls (snd run)) = ["redis"; "queue"]
  /\ environment_calls (snd run) = [services]
  /\ exists secret,
       List.filter (of_kind Secret) (emitted (snd run)) = [secret]
       /\ get (args secret) "stringData" = VObj [("REDIS_URL", VStr "redis://web-redis")].
Proof.
  cbv zeta.
  pose proof (defineApplication_invocation_order
                (web_app environment_of_services) sample_cluster full_context)
    as (Hcalls & _ & Hf).
  destruct (Hf _ eq_refl) as (Henv & _ & Hsecret).
  split; [reflexivity|]. split; [by rewrite Hcalls|]. split; [exact Henv|].
  exact (Hsecret eq_refl).
Defined.

(** ** The store model: writes go to fresh objects only *)

Module StoreFacts.
Import Store.

Lemma alloc_fresh fields (h : store) : h !! fst (alloc fields h) = None.
Proof. simpl. apply not_elem_of_dom, is_fresh. Qed.

Lemma alloc_frame fields (h : store) : h ⊆ snd (alloc fields h).
Proof. simpl. apply insert_subseteq, (alloc_fresh fields). Qed.

Lemma set_frame (h0 h : store) l key v :
  h0 !! l = None -> h0 ⊆ h -> h0 ⊆ set l key v h.
Proof.
  intros Hl Hsub. unfold set. destruct (h !! l) as [[fields|elems]|]; [|done..].
  by apply insert_subseteq_r.
Qed.

Lemma or_empty_frame x (h : store) : h ⊆ snd (or_empty x h).
Proof.
  unfold or_empty. destruct (truthy x); [done|]. apply alloc_frame.
Qed.

Lemma for_keys_invariant (I : store -> Prop) body keys (h h' : store) :
  (forall key h1 h2, I h1 -> body key h1 = Some h2 -> I h2) ->
  I h -> for_keys body keys h = Some h' -> I h'.
Proof.
  intros Hbody. revert h. induction keys as [|key keys IH]; intros h Hh; simpl.
  - by intros [= <-].
  - destruct (body key h) as [h1|] eqn:Hkey; [|done]. eauto.
Qed.

Lemma deepMerge_frame depth target source (h : store) result h' :
  deepMerge depth target source h = Some (result, h') -> h ⊆ h'.
Proof.
  revert target source h result h'.
  induction depth as [|depth IH]; intros target source h result h'; simpl; [done|].
  destruct (truthy source); simpl; [|by intros [= _ <-]].
  destruct (truthy target); simpl; [|by intros [= _ <-]].
  set (r := fresh (dom h)). set (h0 := <[r := _]> h).
  destruct (for_keys _ _ _) as [h1|] eqn:Hloop; [|done]. intros [= _ <-].
  assert (h !! r = None) as Hr by apply (alloc_fresh [] h).
  apply (for_keys_invariant (fun h1 : store => h ⊆ h1)) in Hloop; [done| |].
  - intros key h2 h3 Hsub. unfold merge_key.
    destruct (is_record h2 _).
    + pose proof (or_empty_frame (get h2 target key) h2) as Hor.
      destruct (or_empty _ h2) as [t h4]. simpl in Hor.
      destruct (deepMerge depth t _ h4) as [[m h5]|] eqn:Hrec; [|done].
      intros [= <-]. apply set_frame; [done|].
      etrans; [exact Hsub|]. etrans; [exact Hor|]. by eapply IH.
    + intros [= <-]. by apply set_frame.
  - by apply insert_subseteq.
Qed.

Lemma read_mono depth (h h' : store) v doc :
  h ⊆ h' -> read depth h v = Some doc -> read depth h' v = Some doc.
Proof.
  intros Hsub. revert v doc.
  induction depth as [|depth IH]; intros [ | | | | | |l] doc; simpl; try done.
  destruct (h !! l) as [c|] eqn:Hl; [|done].
  rewrite (lookup_weaken _ _ _ _ Hl Hsub).
  destruct c as [fields|elems]; intros Hread.
  - apply fmap_Some in Hread as (docs & Hdocs & ->).
    apply fmap_Some. exists docs. split; [|done].
    apply mapM_Some in Hdocs. apply mapM_Some.
    eapply Forall2_impl; [exact Hdocs|]. simpl. intros [k x] y Hx. simpl in *.
    apply fmap_Some in Hx as (d & Hd & ->). by rewrite (IH _ _ Hd).
  - apply fmap_Some in Hread as (docs & Hdocs & ->).
    apply fmap_Some. exists docs. split; [|done].
    apply mapM_Some in Hdocs. apply mapM_Some.
    eapply Forall2_impl; [exact Hdocs|]. simpl. intros x y Hx. by apply IH.
Qed.

(** *** The recursion ends on finite documents *)






Lemma deepMerge_step depth target source (h : store) :
  deepMerge (S depth) target source h
  = if negb (truthy source) then Some (target, h)
    else if negb (truthy target) then Some (source, h)
    else
      let (result, h0) := alloc (own_props h target) h in
      match
        for_keys (merge_key (deepMerge depth) target source result)
          (map fst (own_props h0 source)) h0
      with
      | Some h' => Some (RRef result, h')
      | None => None
      end.
Proof. reflexivity. Qed.


End StoreFacts.

(** C10: a call of [deepMerge] that returns leaves every object of the store
    it was called in as it was, so that both arguments stand for the same
    documents after the call as before it. *)
Theorem deepMerge_preserves_arguments
    (depth : nat) (target source result : Store.ref_value) (h h' : Store.store) :
  Store.deepMerge depth target source h = Some (result, h') ->
  (forall l c, h !! l = Some c -> h' !! l = Some c)
  /\ (forall n doc, Store.read n h target = Some doc -> Store.read n h' target = Some doc)
  /\ (forall n doc, Store.read n h source = Some doc -> Store.read n h' source = Some doc).
Proof.
  intros Hrun%StoreFacts.deepMerge_frame. split; [|split].
  - intros l c Hl. by eapply lookup_weaken.
  - intros n doc. by apply StoreFacts.read_mono.
  - intros n doc. by apply StoreFacts.read_mono.
Qed.

Example sample_store_reads :
  Store.read 2%nat sample_store (Store.RRef 0%nat) = Some doc1
  /\ Store.read 2%nat sample_store (Store.RRef 2%nat) = Some doc2.
Proof. split; vm_compute; reflexivity. Qed.

Example sample_store_merge :
  exists h',
    Store.deepMerge 3%nat (Store.RRef 0%nat) (Store.RRef 2%nat) sample_store = Some (Store.RRef 4%nat, h')
    /\ Store.read 2%nat h' (Store.RRef 4%nat) = Some (deepMerge doc1 doc2).
Proof. eexists. split; vm_compute; reflexivity. Qed.

Lemma deepMerge_preserves_arguments_witness :
  match Store.deepMerge 3%nat (Store.RRef 0%nat) (Store.RRef 2%nat) sample_store with
  | Some (result, h') =>
      (forall l c, sample_store !! l = Some c -> h' !! l = Some c)
      /\ (forall n doc, Store.read n sample_store (Store.RRef 0%nat) = Some doc ->
            Store.read n h' (Store.RRef 0%nat) = Some doc)
      /\ (forall n doc, Store.read n sample_store (Store.RRef 2%nat) = Some doc ->
            Store.read n h' (Store.RRef 2%nat) = Some doc)
  | None => False
  end.
Proof.
  destruct (Store.deepMerge 3%nat (Store.RRef 0%nat) (Store.RRef 2%nat) sample_store)
    as [[result h']|] eqn:Hrun.
  - exact (deepMerge_preserves_arguments 3%nat _ _ _ _ _ Hrun).
  - vm_compute in Hrun. discriminate Hrun.
Defined.

(** ** The store model computes the merge of the documents *)

Lemma index_key_inj i j : index_key i = index_key j -> i = j.
Proof.
  unfold index_key. intros H. apply DecimalNat.Unsigned.to_uint_inj.
  apply (f_equal NilEmpty.uint_of_string) in H.
  rewrite !NilEmpty.usu in H. by injection H.
Qed.

Lemma keys_indexed_from {A} i (l : list A) k :
  k ∈ map fst (indexed_from i l) -> exists j, (i <= j)%nat /\ k = index_key j.
Proof.
  revert i. induction l as [|x l IH]; intros i; simpl.
  - by intros ?%elem_of_nil.
  - intros [->|Hin]%elem_of_cons; [by exists i|].
    destruct (IH _ Hin) as (j & Hj & ->). exists j. split; [lia|done].
Qed.

Lemma NoDup_indexed_from {A} i (l : list A) : NoDup (map fst (indexed_from i l)).
Proof.
  revert i. induction l as [|x l IH]; intros i; simpl; constructor; [|done].
  intros (j & Hj & Heq%index_key_inj)%keys_indexed_from. lia.
Qed.
















Lemma well_formed_own_props d :
  well_formed d = true ->
  NoDup (map fst (own_props d))
  /\ Forall (fun q => well_formed (snd q) = true) (own_props d).
Proof.
  destruct d as [ | | | | |s|elems|fields]; simpl;
    try (intros _; split; [apply NoDup_nil_2|constructor]).
  - intros _. split; [apply NoDup_indexed_from|].
    generalize 0%nat. induction (chars s); intros i; simpl; by constructor.
  - intros Hall. split; [apply NoDup_indexed_from|].
    generalize 0%nat. induction elems as [|x elems IH]; intros i; simpl; [constructor|].
    simpl in Hall. apply andb_prop in Hall as [Hx Hall]. constructor; [done|by apply IH].
  - apply well_formed_obj.
Qed.








(** * Further properties of the merge *)

Lemma obj_set_same {A} key (v : A) ps :
  lookup_key key ps = Some v -> obj_set key v ps = ps.
Proof.
  induction ps as [|[k x] ps IH]; simpl; [done|].
  destruct (String.eqb_spec k key) as [->|Hne].
  - by intros [= ->].
  - intros H. by rewrite IH.
Qed.

Lemma fold_merge_step_fixed target fs acc :
  Forall (fun kv => lookup_key (fst kv) acc = Some (merged_at target (fst kv) (snd kv))) fs ->
  fold_left (merge_step target) fs acc = acc.
Proof.
  induction 1 as [|[k v] fs Hkv _ IH]; simpl; [done|].
  unfold merge_step at 2. simpl in *. by rewrite obj_set_same.
Qed.

Lemma deepMerge_record_truthy target fields :
  truthy (deepMerge target (VObj fields)) = true.
Proof.
  destruct (truthy target) eqn:Ht.
  - by rewrite deepMerge_unfold.
  - by rewrite deepMerge_falsy_target.
Qed.

Lemma or_empty_truthy x : truthy (or_empty x) = true.
Proof. unfold or_empty. by destruct (truthy x) eqn:Hx. Qed.

(** Merging a record into itself, or a second time into the merge, changes
    nothing. *)
Lemma deepMerge_again override :
  well_formed override = true -> is_record override = true ->
  deepMerge override override = override
  /\ forall base, truthy base = true ->
       deepMerge (deepMerge base override) override = deepMerge base override.
Proof.
  induction override as [ | | | | | | elems _ | fields IH] using value_ind; try done.
  intros [Hnd Hwf]%well_formed_obj _.
  rewrite Forall_forall in IH, Hwf.
  assert (forall k v, (k, v) ∈ fields -> is_record v = true ->
            deepMerge v v = v
            /\ forall base, truthy base = true ->
                 deepMerge (deepMerge base v) v = deepMerge base v) as IH'.
  { intros k v Hin Hrec. apply (IH (k, v)); [done| |done]. by apply (Hwf (k, v)). }
  split.
  - rewrite deepMerge_unfold by done. simpl. f_equal.
    apply fold_merge_step_fixed, Forall_forall. intros [k v] Hin. simpl.
    rewrite (lookup_key_NoDup k v) by done. f_equal.
    unfold merged_at. destruct (is_record v) eqn:Hrec; [|done].
    rewrite get_obj, (lookup_key_NoDup k v) by done. cbn [default from_option]. unfold id.
    assert (or_empty v = v) as -> by (by destruct v).
    symmetry. apply (proj1 (IH' k _ Hin Hrec)).
  - intros base Hbase. rewrite (deepMerge_unfold base) by done.
    rewrite deepMerge_unfold by done. cbn [own_props]. f_equal.
    apply fold_merge_step_fixed, Forall_forall. intros [k v] Hin. simpl.
    rewrite lookup_fold_merge_step, (lookup_key_NoDup k v) by done. f_equal.
    unfold merged_at. destruct (is_record v) eqn:Hrec; [|done].
    rewrite get_obj, lookup_fold_merge_step, (lookup_key_NoDup k v) by done.
    cbn [default from_option]. unfold id, merged_at. rewrite Hrec.
    assert (truthy (deepMerge (or_empty (get base k)) v) = true) as Hm.
    { destruct v; try done. apply deepMerge_record_truthy. }
    unfold or_empty at 2. rewrite Hm.
    symmetry. apply (proj2 (IH' k _ Hin Hrec)), or_empty_truthy.
Qed.

(** X1: applying the same override a second time changes nothing. *)
Theorem deepMerge_idempotent (base : value) (override : props) :
  well_formed (VObj override) = true ->
  deepMerge (deepMerge base (VObj override)) (VObj override)
  = deepMerge base (VObj override).
Proof.
  intros Hwf. destruct (deepMerge_again (VObj override) Hwf eq_refl) as [Hself Htwice].
  destruct (truthy base) eqn:Hb.
  - by apply Htwice.
  - rewrite (deepMerge_falsy_target base) by done. exact Hself.
Qed.

Lemma deepMerge_idempotent_witness :
  deepMerge (deepMerge doc1 doc2) doc2 = deepMerge doc1 doc2.
Proof. exact (deepMerge_idempotent doc1 (own_props doc2) eq_refl). Defined.

Lemma keys_fold_merge_step target fs acc key :
  key ∈ map fst (fold_left (merge_step target) fs acc)
  <-> key ∈ map fst acc \/ key ∈ map fst fs.
Proof.
  revert acc. induction fs as [|[k v] fs IH]; intros acc; simpl.
  - rewrite elem_of_nil. tauto.
  - rewrite IH. unfold merge_step at 1. simpl. rewrite keys_obj_set, elem_of_cons. tauto.
Qed.

(** X2: the merge of two present values, the source having no key
    [__proto__], is a record whose keys are the keys of the one and of the
    other: no key is dropped and none is made up.  (A key [__proto__] of the
    source is assigned to the prototype of the result and is not a key of
    it.) *)
Theorem deepMerge_keys (target source : value) (key : string) :
  truthy target = true -> truthy source = true ->
  "__proto__" ∉ map fst (own_props source) ->
  is_record (deepMerge target source) = true
  /\ (key ∈ map fst (own_props (deepMerge target source))
      <-> key ∈ map fst (own_props target) \/ key ∈ map fst (own_props source)).
Proof.
  intros Ht Hs _. rewrite deepMerge_unfold by done. split; [done|].
  apply keys_fold_merge_step.
Qed.

Lemma deepMerge_keys_witness :
  is_record (deepMerge doc1 doc_list9) = true
  /\ ("list" ∈ map fst (own_props (deepMerge doc1 doc_list9))
      <-> "list" ∈ map fst (own_props doc1) \/ "list" ∈ map fst (own_props doc_list9)).
Proof.
  apply (deepMerge_keys doc1 doc_list9 "list"); [reflexivity..|].
  apply (bool_decide_unpack _). vm_compute. exact I.
Defined.

(** ** Unique keys are kept *)

Lemma NoDup_obj_set {A} key (v : A) ps :
  NoDup (map fst ps) -> NoDup (map fst (obj_set key v ps)).
Proof.
  induction ps as [|[k x] ps IH]; simpl; intros Hnd.
  - apply NoDup_singleton.
  - apply NoDup_cons in Hnd as [Hk Hnd].
    destruct (String.eqb_spec k key) as [->|Hne]; simpl.
    + by apply NoDup_cons.
    + apply NoDup_cons. split; [|by apply IH].
      rewrite keys_obj_set. intros [->|Hin]; done.
  Qed.

Lemma Forall_obj_set {A} (P : A -> Prop) key (v : A) ps :
  P v -> Forall (fun kv => P (snd kv)) ps ->
  Forall (fun kv => P (snd kv)) (obj_set key v ps).
Proof.
  intros Hv. induction 1 as [|[k x] ps Hx Hps IH]; simpl.
  - by repeat constructor.
  - destruct (String.eqb k key); by constructor.
Qed.

Lemma well_formed_props fields :
  NoDup (map fst fields) -> Forall (fun kv => well_formed (snd kv) = true) fields ->
  well_formed (VObj fields) = true.
Proof.
  intros Hnd Hall. simpl. apply andb_true_intro. split.
  - by apply bool_decide_eq_true.
  - apply forallb_forall. intros kv Hin. rewrite Forall_forall in Hall.
    apply Hall. by apply list_elem_of_In.
Qed.

Lemma well_formed_get v key : well_formed v = true -> well_formed (get v key) = true.
Proof.
  intros [_ Hall]%well_formed_own_props. unfold get.
  destruct (lookup_key key (own_props v)) as [x|] eqn:Hx.
  - apply lookup_key_elem_of in Hx. rewrite Forall_forall in Hall. apply (Hall _ Hx).
  - destruct v; try done; by destruct (String.eqb key "length").
Qed.

Lemma well_formed_or_empty v : well_formed v = true -> well_formed (or_empty v) = true.
Proof. unfold or_empty. by destruct (truthy v). Qed.

(** What the induction on [source] gives for its properties. *)
Lemma own_props_ind (P : value -> Prop) source :
  match source with
  | VArr elems => Forall P elems
  | VObj fields => Forall (fun kv => P (snd kv)) fields
  | _ => True
  end ->
  Forall (fun kv => is_record (snd kv) = true -> P (snd kv)) (own_props source).
Proof.
  destruct source as [ | | | | |s|elems|fields]; simpl; intros Hall;
    try (by constructor).
  - clear Hall. generalize 0%nat.
    induction (chars s); intros i; simpl; by constructor.
  - generalize 0%nat. induction Hall; intros i; simpl; constructor; auto.
  - eapply Forall_impl; [exact Hall|]. auto.
Qed.

Lemma well_formed_fold_merge_step target ps acc :
  well_formed target = true ->
  NoDup (map fst acc) ->
  Forall (fun kv => well_formed (snd kv) = true) acc ->
  Forall (fun kv => well_formed (snd kv) = true) ps ->
  Forall (fun kv => is_record (snd kv) = true ->
                    forall t, well_formed t = true -> well_formed (snd kv) = true ->
                              well_formed (deepMerge t (snd kv)) = true) ps ->
  well_formed (VObj (fold_left (merge_step target) ps acc)) = true.
Proof.
  intros Ht. revert acc.
  induction ps as [|[k v] ps IH]; intros acc Hnd Hacc Hps Hind; simpl.
  - by apply well_formed_props.
  - apply Forall_cons in Hps as [Hv Hps]. apply Forall_cons in Hind as [Hrec Hind].
    simpl in Hv, Hrec. unfold merge_step at 2. cbn [fst snd].
    apply IH; [by apply NoDup_obj_set| |done..].
    apply (Forall_obj_set (fun v => well_formed v = true)); [|done].
    unfold merged_at. cbn [fst snd]. destruct (is_record v) eqn:Hv'; [|done].
    apply Hrec; [done| |done]. by apply well_formed_or_empty, well_formed_get.
Qed.

Lemma deepMerge_well_formed_step source :
  match source with
  | VArr elems =>
      Forall (fun v => forall t, well_formed t = true -> well_formed v = true ->
                                 well_formed (deepMerge t v) = true) elems
  | VObj fields =>
      Forall (fun kv => forall t, well_formed t = true -> well_formed (snd kv) = true ->
                                  well_formed (deepMerge t (snd kv)) = true) fields
  | _ => True
  end ->
  forall target, well_formed target = true -> well_formed source = true ->
                 well_formed (deepMerge target source) = true.
Proof.
  intros Hind target Ht Hs.
  destruct (truthy source) eqn:Hts; [|by rewrite deepMerge_falsy_source].
  destruct (truthy target) eqn:Htt; [|by rewrite deepMerge_falsy_target].
  rewrite deepMerge_unfold by done.
  destruct (well_formed_own_props _ Hs) as [_ Hsv].
  destruct (well_formed_own_props _ Ht) as [Hnd Htv].
  apply well_formed_fold_merge_step; try done.
  by apply (own_props_ind
              (fun v => forall t, well_formed t = true -> well_formed v = true ->
                                  well_formed (deepMerge t v) = true)).
Qed.

(** X3: the merge of two values whose objects have each key once is such a
    value again. *)
Theorem deepMerge_well_formed (target source : value) :
  well_formed target = true -> well_formed source = true ->
  well_formed (deepMerge target source) = true.
Proof.
  revert target.
  induction source using value_ind; intros target;
    by apply deepMerge_well_formed_step.
Qed.

Lemma deepMerge_well_formed_witness : well_formed (deepMerge doc1 doc2) = true.
Proof. apply (deepMerge_well_formed doc1 doc2); reflexivity. Defined.

(** ** Values at a path *)

Lemma get_path_undefined path : get_path VUndef path = VUndef.
Proof. induction path as [|k path IH]; [done|]. exact IH. Qed.

Lemma agrees_get_path merged override path leaf :
  well_formed override = true ->
  agrees merged override ->
  get_path override path = leaf -> is_record leaf = false -> leaf <> VUndef ->
  get_path merged path = leaf.
Proof.
  revert merged override. induction path as [|k path IH]; intros merged override Hwf Hagrees.
  - simpl. intros -> Hleaf _. by apply agrees_not_record in Hagrees.
  - destruct (is_record override) eqn:Hrec.
    2:{ apply agrees_not_record in Hagrees; [|done]. by subst merged. }
    destruct override as [ | | | | | | |fields]; try done.
    apply agrees_obj in Hagrees as [_ Hall].
    apply well_formed_obj in Hwf as [Hnd Hwf].
    cbn [get_path fold_left]. rewrite get_obj.
    destruct (lookup_key k fields) as [v|] eqn:Hk; simpl.
    + apply lookup_key_elem_of in Hk. rewrite Forall_forall in Hall, Hwf.
      apply (IH (get merged k) v); [apply (Hwf _ Hk)|apply (Hall _ Hk)].
    + intros Hleaf _ Hne. fold (get_path VUndef path) in Hleaf.
      rewrite get_path_undefined in Hleaf. by subst leaf.
Qed.

(** X4: on plain data, the keys of the override being data keys at every
    depth: a value the override holds at a path, however deep, that is a
    primitive or an array, and not undefined, is what the merge holds at
    that path, whatever the base. *)
Theorem deepMerge_override_leaf
    (base : value) (override : props) (path : list string) (leaf : value) :
  well_formed (VObj override) = true ->
  plain_keys (VObj override) = true ->
  get_path (VObj override) path = leaf ->
  is_record leaf = false -> leaf <> VUndef ->
  get_path (deepMerge base (VObj override)) path = leaf.
Proof.
  intros Hwf _. apply agrees_get_path; [done|]. by apply agrees_deepMerge.
Qed.

Lemma deepMerge_override_leaf_witness :
  get_path (deepMerge doc1 doc2) ["a"; "y"] = VNum 9.
Proof.
  apply (deepMerge_override_leaf doc1 (own_props doc2) ["a"; "y"] (VNum 9));
    [reflexivity..|discriminate].
Defined.

(** * Further properties of the merge over the store *)


Lemma for_keys_invariant_keys (I : Store.store -> Prop) body keys (h h' : Store.store) :
  (forall key h1 h2, key ∈ keys -> I h1 -> body key h1 = Some h2 -> I h2) ->
  I h -> Store.for_keys body keys h = Some h' -> I h'.
Proof.
  revert h. induction keys as [|key keys IH]; intros h Hbody Hh; simpl.
  - by intros [= <-].
  - destruct (body key h) as [h1|] eqn:Hkey; [|done].
    apply IH.
    + intros key' h2 h3 Hin. apply Hbody. by right.
    + eapply Hbody; [left|exact Hh|exact Hkey].
Qed.

Lemma own_props_bound (h h' : Store.store) v :
  h ⊆ h' -> bound h v -> Store.own_props h' v = Store.own_props h v.
Proof.
  intros Hsub. destruct v as [ | | | | | |l]; try done.
  intros [c Hl]. simpl. by rewrite Hl, (lookup_weaken _ _ _ _ Hl Hsub).
Qed.

(** X6: the merge of two present values is a newly allocated object, no
    alias of anything in the store before the call; and it is a shallow copy:
    at a key the source does not have it holds the very value the target
    holds, a reference staying the same reference. *)
Theorem deepMerge_shallow_copy
    (depth : nat) (target source result : Store.ref_value) (h h' : Store.store) :
  Store.truthy target = true -> Store.truthy source = true -> bound h source ->
  Store.deepMerge depth target source h = Some (result, h') ->
  exists r fields,
    result = Store.RRef r
    /\ h !! r = None
    /\ h' !! r = Some (Store.CObj fields)
    /\ forall key,
         lookup_key key (Store.own_props h source) = None ->
         lookup_key key fields = lookup_key key (Store.own_props h target).
Proof.
  intros Ht Hs Hbound Hrun. destruct depth as [|depth]; [done|].
  rewrite StoreFacts.deepMerge_step, Hs, Ht in Hrun. cbn [negb Store.alloc] in Hrun.
  set (r := fresh (dom h)) in *.
  set (h0 := <[r := Store.CObj (Store.own_props h target)]> h) in *.
  assert (h !! r = None) as Hr by apply not_elem_of_dom, is_fresh.
  assert (h ⊆ h0) as Hh0 by (by apply insert_subseteq).
  rewrite (own_props_bound h h0 source Hh0 Hbound) in Hrun.
  destruct (Store.for_keys _ _ h0) as [h1|] eqn:Hloop; [|done].
  injection Hrun as <- <-. exists r.
  apply (for_keys_invariant_keys
           (fun h1 : Store.store =>
              exists fields, h1 !! r = Some (Store.CObj fields)
                /\ forall key, key ∉ map fst (Store.own_props h source) ->
                     lookup_key key fields = lookup_key key (Store.own_props h target)))
    in Hloop.
  - destruct Hloop as (fields & Hfields & Hkeys). exists fields.
    repeat split; [done..|]. intros key Hkey. by apply Hkeys, lookup_key_None.
  - intros key h2 h3 Hin (fields & Hfields & Hkeys). unfold Store.merge_key.
    assert (forall (x : Store.ref_value) (h4 : Store.store),
              h2 ⊆ h4 ->
              exists fields',
                Store.set r key x h4 !! r = Some (Store.CObj fields')
                /\ forall key', key' ∉ map fst (Store.own_props h source) ->
                     lookup_key key' fields'
                     = lookup_key key' (Store.own_props h target)) as Hset.
    { intros x h4 Hsub. unfold Store.set.
      rewrite (lookup_weaken _ _ _ _ Hfields Hsub).
      exists (obj_set key x fields). split; [by rewrite lookup_insert_eq|].
      intros key' Hkey'. rewrite lookup_key_obj_set_ne; [by apply Hkeys|].
      by intros ->. }
    destruct (Store.is_record h2 _).
    + pose proof (StoreFacts.or_empty_frame (Store.get h2 target key) h2) as Hor.
      destruct (Store.or_empty _ h2) as [t h4]. simpl in Hor.
      destruct (Store.deepMerge depth t _ h4) as [[m h5]|] eqn:Hrec; [|done].
      intros [= <-]. apply Hset. etrans; [exact Hor|].
      by eapply StoreFacts.deepMerge_frame.
    + intros [= <-]. by apply Hset.
  - exists (Store.own_props h target). split; [by apply lookup_insert_eq|done].
Qed.

Lemma deepMerge_shallow_copy_witness :
  exists r fields h',
    Store.deepMerge 3%nat (Store.RRef 0%nat) (Store.RRef 3%nat) sample_store
    = Some (Store.RRef r, h')
    /\ sample_store !! r = None
    /\ h' !! r = Some (Store.CObj fields)
    /\ lookup_key "a" fields = Some (Store.RRef 1%nat).
Proof.
  destruct (Store.deepMerge 3%nat (Store.RRef 0%nat) (Store.RRef 3%nat) sample_store)
    as [[result h']|] eqn:Hrun; [|vm_compute in Hrun; discriminate Hrun].
  destruct (deepMerge_shallow_copy 3%nat (Store.RRef 0%nat) (Store.RRef 3%nat)
              result sample_store h' eq_refl eq_refl)
    as (r & fields & -> & Hfresh & Hfields & Hshared); [by eexists|exact Hrun|].
  exists r, fields, h'. repeat split; [done..|]. by rewrite (Hshared "a").
Defined.

(** * Further properties of the composers *)

(** ** Composed code does not read the trace *)

Lemma oblivious_ret {A} (a : A) : oblivious (ret a).
Proof. intros t. unfold ret. simpl. by rewrite app_nil_r. Qed.

Lemma oblivious_throw {A} msg : oblivious (@throw A msg).
Proof. intros t. unfold throw. simpl. by rewrite app_nil_r. Qed.

Lemma oblivious_record_event e : oblivious (record_event e).
Proof. by intros t. Qed.

Lemma oblivious_bind {A B} (m : Compose A) (k : A -> Compose B) :
  oblivious m -> (forall a, oblivious (k a)) -> oblivious (bind m k).
Proof.
  intros Hm Hk t. unfold bind. rewrite (Hm t).
  destruct (m []) as [[a|msg] t1]; simpl.
  - rewrite (Hk a (t ++ t1)), (Hk a t1). simpl. by rewrite app_assoc.
  - done.
Qed.

Lemma oblivious_map_compose {A B} (f : A -> Compose B) xs :
  (forall x, oblivious (f x)) -> oblivious (map_compose f xs).
Proof.
  intros Hf. induction xs as [|x xs IH]; simpl.
  - apply oblivious_ret.
  - apply oblivious_bind; [done|]. intros y.
    apply oblivious_bind; [done|]. intros ys. apply oblivious_ret.
Qed.

Ltac oblivious_step :=
  first
    [ apply oblivious_ret
    | apply oblivious_throw
    | apply oblivious_record_event
    | apply oblivious_bind; [|intros ?]
    | case_match ].

Lemma oblivious_defineDeployment a namespace cluster factoryConfig :
  oblivious (defineDeployment a namespace cluster factoryConfig).
Proof. unfold defineDeployment, defineScaler, emit. repeat oblivious_step. Qed.

Lemma oblivious_defineCICD app namespace cluster factoryConfig :
  oblivious (defineCICD app namespace cluster factoryConfig).
Proof. unfold defineCICD, emit. repeat oblivious_step. Qed.

(** ** The deployment composer, case by case *)

Lemma composable_spec a factoryConfig :
  composable a factoryConfig = true
  <-> ingress a = None
      \/ (opt_truthy num_truthy (containerPort a) = true
          /\ is_Some (exposeService factoryConfig)).
Proof.
  unfold composable. destruct (ingress a); [|by intuition].
  rewrite andb_true_iff, bool_decide_eq_true. intuition congruence.
Qed.

Lemma run_defineDeployment a namespace cluster factoryConfig t :
  composable a factoryConfig = true ->
  defineDeployment a namespace cluster factoryConfig t
  = (Returned
       {| result_name := get (get (finalDeployment a namespace) "metadata") "name";
          result_containerPort := containerPort a;
          result_ingress :=
            match exposeService factoryConfig, exposed_args_of a namespace with
            | Some expose, Some exposed => Some (expose cluster exposed)
            | _, _ => None
            end;
          result_scaler := scaler a |},
     t ++ Emitted (deployment_resource a namespace cluster)
       :: exposure_events a namespace cluster ++ scaler_events a namespace cluster).
Proof.
  unfold composable, defineDeployment, exposure_events, scaler_events, exposed_args_of,
    opt_truthy, defineScaler, bind, emit, record_event, ret.
  destruct (ingress a) as [ing|], (containerPort a) as [port|],
    (exposeService factoryConfig) as [expose|], (scaler a) as [sc|];
    simpl; try done;
    try (destruct (num_truthy port) eqn:Hport; simpl; try done);
    intros _; rewrite <- ?app_assoc; reflexivity.
Qed.

Lemma defineDeployment_thrown a namespace cluster factoryConfig t :
  composable a factoryConfig = false ->
  fst (defineDeployment a namespace cluster factoryConfig t)
  = Thrown (if opt_truthy num_truthy (containerPort a)
            then missing_exposeService_error (name a)
            else missing_port_error (name a)).
Proof.
  unfold composable, defineDeployment, opt_truthy, bind, emit, record_event, ret, throw.
  destruct (ingress a) as [ing|]; [|done].
  destruct (containerPort a) as [port|]; simpl; [|done].
  destruct (num_truthy port); simpl; [|done].
  destruct (exposeService factoryConfig); [|done].
  intros H. apply bool_decide_eq_false in H. destruct H. by eexists.
Qed.

(** X7: a deployment is composed only if it requests no ingress, or has a
    usable container port and the context has [exposeService].  A deployment
    that requests ingress without one of the two throws, whatever was
    composed before, and the port is checked first: without a usable port
    the error is the missing-port error, also when [exposeService] is
    missing too; with one, it is the missing-[exposeService] error. *)
Theorem defineDeployment_returns_only_if
    (a : DeploymentArgs) (namespace : string) (cluster : Cluster)
    (factoryConfig : FactoryContext) (t : Trace) :
  let run := defineDeployment a namespace cluster factoryConfig t in
  (forall result, fst run = Returned result ->
     ingress a = None
     \/ (opt_truthy num_truthy (containerPort a) = true
         /\ is_Some (exposeService factoryConfig)))
  /\ (is_Some (ingress a) ->
      opt_truthy num_truthy (containerPort a) = false
      \/ exposeService factoryConfig = None ->
      fst run = Thrown (if opt_truthy num_truthy (containerPort a)
                        then missing_exposeService_error (name a)
                        else missing_port_error (name a))).
Proof.
  intros run. unfold run. split.
  - intros result Hresult. apply composable_spec.
    destruct (composable a factoryConfig) eqn:Hc; [done|].
    by rewrite defineDeployment_thrown in Hresult.
  - intros [ing Hing] Hmissing. apply defineDeployment_thrown.
    unfold composable. rewrite Hing.
    destruct Hmissing as [-> | ->]; [done|]. by rewrite andb_false_r.
Qed.

(** X8: what a composable deployment does: it emits its workload resource,
    then calls [exposeService] once if ingress is requested (never otherwise),
    with the deployment, its namespace, name, port and ingress, then emits one
    autoscaler if a scaler is configured; the autoscaler is named after and
    targets the configured name.  It returns the callback's result as it is,
    and the scaler and port it was given. *)
Theorem defineDeployment_composed
    (a : DeploymentArgs) (namespace : string) (cluster : Cluster)
    (factoryConfig : FactoryContext) (t : Trace) :
  composable a factoryConfig = true ->
  let run := defineDeployment a namespace cluster factoryConfig t in
  exists result autoscalers,
    fst run = Returned result
    /\ snd run
       = t ++ Emitted (deployment_resource a namespace cluster)
           :: match exposed_args_of a namespace with
              | Some exposed => [ExposeServiceInvoked cluster exposed]
              | None => []
              end
           ++ map Emitted autoscalers
    /\ (ingress a = None -> exposed_args_of a namespace = None)
    /\ length autoscalers = match scaler a with Some _ => 1%nat | None => 0%nat end
    /\ Forall (fun r =>
                 kind r = HorizontalPodAutoscaler
                 /\ logical_name r = name a
                 /\ get_path (args r) ["spec"; "scaleTargetRef"; "name"] = VStr (name a)
                 /\ get_path (args r) ["metadata"; "namespace"] = VStr namespace)
              autoscalers
    /\ result_ingress result
       = match exposeService factoryConfig, exposed_args_of a namespace with
         | Some expose, Some exposed => Some (expose cluster exposed)
         | _, _ => None
         end
    /\ result_scaler result = scaler a
    /\ result_containerPort result = containerPort a.
Proof.
  intros Hc run. unfold run. rewrite run_defineDeployment by done.
  eexists. exists (emitted (scaler_events a namespace cluster)). cbn [fst snd].
  split; [done|]. split; [|split; [|split; [|split]]].
  - unfold exposure_events, scaler_events. by destruct (scaler a).
  - unfold exposed_args_of. by intros ->.
  - unfold scaler_events. by destruct (scaler a).
  - unfold scaler_events. destruct (scaler a); by repeat constructor.
  - done.
Qed.

Lemma defineDeployment_composed_witness :
  let run := defineDeployment (api_args (Some 3000)) "web" sample_cluster full_context [] in
  exists result (autoscalers : list Resource),
    fst run = Returned result
    /\ map kind (emitted (snd run)) = [Deployment; HorizontalPodAutoscaler]
    /\ length (exposure_calls (snd run)) = 1%nat
    /\ length autoscalers = 1%nat
    /\ result_ingress result = Some (VObj [("service", VStr "api")]).
Proof.
  destruct (defineDeployment_composed (api_args (Some 3000)) "web" sample_cluster
              full_context [] eq_refl)
    as (result & autoscalers & Hresult & Htrace & _ & Hlen & _ & Hingress & _).
  exists result, autoscalers.
  split; [exact Hresult|]. split; [reflexivity|]. split; [reflexivity|].
  split; [exact Hlen|exact Hingress].
Defined.

Lemma defineDeployment_returns_only_if_witness :
  fst (defineDeployment (api_args None) "web" sample_cluster bare_context [])
  = Thrown "Container port must be defined when using ingress for application api"
  /\ fst (defineDeployment (api_args (Some 3000)) "web" sample_cluster bare_context [])
     = Thrown "exposeService is required when ingress is configured for deployment api".
Proof.
  split.
  - apply (proj2 (defineDeployment_returns_only_if (api_args None) "web" sample_cluster
                    bare_context [])); [by eexists|by left].
  - apply (proj2 (defineDeployment_returns_only_if (api_args (Some 3000)) "web"
                    sample_cluster bare_context [])); [by eexists|by right].
Defined.

(** X9: a container port of 0 counts as no port: with ingress requested the
    deployment fails with the missing-port error and nothing is emitted or
    called, whatever the context. *)
Theorem defineDeployment_port_zero
    (a : DeploymentArgs) (namespace : string) (cluster : Cluster)
    (factoryConfig : FactoryContext) (t : Trace) :
  is_Some (ingress a) -> containerPort a = Some 0 ->
  defineDeployment a namespace cluster factoryConfig t
  = (Thrown (missing_port_error (name a)), t).
Proof.
  intros Hingress Hport. unfold defineDeployment.
  rewrite Hport, bool_decide_eq_true_2 by done. reflexivity.
Qed.

Lemma defineDeployment_port_zero_witness :
  defineDeployment (api_args (Some 0)) "web" sample_cluster full_context []
  = (Thrown "Container port must be defined when using ingress for application api", []).
Proof.
  apply (defineDeployment_port_zero (api_args (Some 0)) "web" sample_cluster full_context []).
  - by eexists.
  - reflexivity.
Defined.

(** ** Overrides of the deployment *)

Lemma deepMerge_absent_or_empty base override :
  is_record base = true -> absent_or_empty override = true ->
  deepMerge base (default_to (VObj []) override) = base.
Proof.
  intros Hbase Ho. destruct override as [ | | | | | | |[|? ?]]; try done;
    by destruct base.
Qed.

(** X10: overrides that are absent ([undefined], [null]) or empty ([{}]) leave
    the defaults as they are: the emitted deployment is the default document
    around the default container, and the name returned is the configured
    name. *)
Theorem finalDeployment_defaults (a : DeploymentArgs) (namespace : string) :
  absent_or_empty (containerOverride a) = true ->
  absent_or_empty (deploymentOverride a) = true ->
  finalDeployment a namespace = baseDeployment a namespace (baseContainer a)
  /\ get_path (finalDeployment a namespace) ["metadata"; "name"] = VStr (name a)
  /\ get_path (finalDeployment a namespace) ["spec"; "template"; "spec"; "containers"]
     = VArr [baseContainer a].
Proof.
  intros Hc Hd. unfold finalDeployment.
  rewrite (deepMerge_absent_or_empty (baseContainer a)) by done.
  rewrite deepMerge_absent_or_empty by done. done.
Qed.

Lemma finalDeployment_defaults_witness :
  finalDeployment (api_args (Some 3000)) "web"
  = baseDeployment (api_args (Some 3000)) "web" (baseContainer (api_args (Some 3000)))
  /\ get_path (finalDeployment (api_args (Some 3000)) "web") ["metadata"; "name"]
     = VStr "api"
  /\ get_path (finalDeployment (api_args (Some 3000)) "web")
       ["spec"; "template"; "spec"; "containers"]
     = VArr [baseContainer (api_args (Some 3000))].
Proof. apply (finalDeployment_defaults (api_args (Some 3000)) "web"); reflexivity. Defined.

(** X11: for a [deploymentOverride] of plain data whose keys are data keys
    at every depth: a primitive or an array (not undefined) that the
    override holds at a path is what the emitted deployment holds at that
    path; a sequence given for the containers thus replaces the composed
    container, and a name given under [metadata] renames the object while
    the resource keeps the configured name as its logical name. *)
Theorem deployment_override_wins
    (a : DeploymentArgs) (namespace : string) (cluster : Cluster)
    (override : props) (path : list string) (leaf : value) :
  deploymentOverride a = VObj override ->
  well_formed (VObj override) = true ->
  plain_keys (VObj override) = true ->
  get_path (VObj override) path = leaf ->
  is_record leaf = false -> leaf <> VUndef ->
  get_path (args (deployment_resource a namespace cluster)) path = leaf
  /\ logical_name (deployment_resource a namespace cluster) = name a.
Proof.
  intros Ho Hwf _ Hpath Hleaf Hne. split; [|done].
  cbn [args deployment_resource]. unfold finalDeployment. rewrite Ho. cbn [default_to].
  apply (agrees_get_path _ (VObj override)); try done.
  by apply agrees_deepMerge.
Qed.

Lemma deployment_override_wins_witness :
  get_path (args (deployment_resource overridden_args "web" sample_cluster))
    ["metadata"; "name"] = VStr "api-v2"
  /\ logical_name (deployment_resource overridden_args "web" sample_cluster) = "api".
Proof.
  apply (deployment_override_wins overridden_args "web" sample_cluster
           [("metadata", VObj [("name", VStr "api-v2")]);
            ("spec", VObj [("replicas", VNum 3)])]
           ["metadata"; "name"] (VStr "api-v2"));
    [reflexivity..|discriminate].
Defined.

(** ** The orchestrator after the secret bundle *)

Lemma map_compose_returned {A B} (f : A -> Compose B) xs t :
  (forall x, oblivious (f x)) ->
  Forall (fun x => exists y, fst (f x []) = Returned y) xs ->
  exists ys,
    map_compose f xs t = (Returned ys, t ++ concat (map (fun x => snd (f x [])) xs))
    /\ length ys = length xs.
Proof.
  intros Hf Hall. revert t. induction Hall as [|x xs [y Hy] _ IH]; intros t; simpl.
  - exists []. unfold ret. by rewrite app_nil_r.
  - unfold bind at 1. rewrite (Hf x t), Hy.
    destruct (IH (t ++ snd (f x []))) as (ys & Hrun & Hlen).
    unfold bind at 1. rewrite Hrun. exists (y :: ys). unfold ret.
    split; [by rewrite <- app_assoc|]. simpl. by rewrite Hlen.
Qed.

Lemma map_compose_thrown {A B} (f : A -> Compose B) xs t msg :
  (forall x, oblivious (f x)) ->
  fst (map_compose f xs t) = Thrown msg ->
  exists x, x ∈ xs /\ fst (f x []) = Thrown msg.
Proof.
  intros Hf. revert t. induction xs as [|x xs IH]; intros t; simpl; [done|].
  unfold bind at 1. rewrite (Hf x t).
  destruct (fst (f x [])) as [y|msg'] eqn:Hx.
  - unfold bind at 1.
    destruct (map_compose f xs (t ++ snd (f x []))) as [[ys|msg'] t1] eqn:Hrest; [done|].
    simpl. intros [= ->]. destruct (IH (t ++ snd (f x []))) as (x' & Hin & Hx').
    { by rewrite Hrest. }
    exists x'. split; [by right|done].
  - simpl. intros [= ->]. exists x. split; [left|done].
Qed.

Lemma map_compose_returned_inv {A B} (f : A -> Compose B) xs t ys :
  (forall x, oblivious (f x)) ->
  fst (map_compose f xs t) = Returned ys ->
  Forall (fun x => exists y, fst (f x []) = Returned y) xs.
Proof.
  intros Hf. revert t ys. induction xs as [|x xs IH]; intros t ys; simpl; [done|].
  unfold bind at 1. rewrite (Hf x t).
  destruct (fst (f x [])) as [y|msg] eqn:Hx; [|done].
  unfold bind at 1.
  destruct (map_compose f xs (t ++ snd (f x []))) as [[ys'|msg] t1] eqn:Hrest; [|done].
  intros _. constructor; [by eexists|]. apply (IH (t ++ snd (f x [])) ys').
  by rewrite Hrest.
Qed.

Lemma defineCICD_run app namespace cluster factoryConfig :
  (exists result, fst (defineCICD app namespace cluster factoryConfig []) = Returned result)
  /\ map kind (emitted (snd (defineCICD app namespace cluster factoryConfig [])))
     = cicd_kinds cluster factoryConfig.
Proof.
  unfold defineCICD, cicd_kinds, bind, emit, record_event, ret.
  destruct (_ ≫= _) as [getAccount|]; simpl; [|by eauto].
  destruct (getAccount cluster); simpl; by eauto.
Qed.

Lemma defineApplication_unfold app cluster factoryConfig t :
  let environment := computed_environment app cluster factoryConfig in
  let secrets := secret_reference app environment in
  let namespace := namespace_of app in
  defineApplication app cluster factoryConfig t
  = (do deployments <-
       map_compose
         (fun deploymentConfig =>
            defineDeployment (deployment_args app secrets deploymentConfig)
              namespace cluster factoryConfig)
         (declared_deployments app);
     do cicd <-
       match app_cicd app with
       | Some false => ret None
       | _ => do r <- defineCICD app namespace cluster factoryConfig; ret (Some r)
       end;
     ret {| out_namespace := namespace;
            out_secrets := secrets;
            out_services := resolved_services app cluster factoryConfig;
            out_deployments := deployments;
            out_cicd := cicd |})
      (t ++ Emitted (namespace_resource namespace cluster)
         :: service_events app cluster factoryConfig
         ++ environment_events app cluster factoryConfig
         ++ secret_events app cluster environment).
Proof.
  intros environment secrets namespace. unfold defineApplication. cbv zeta.
  unfold bind at 1, emit at 1, record_event at 1. cbv beta iota.
  unfold bind at 1. rewrite run_defineServices. cbv beta iota. cbn [fst snd].
  unfold bind at 1. rewrite run_defineSecrets. cbv beta iota.
  fold environment secrets namespace. f_equal. by rewrite <- !app_assoc.
Qed.

Lemma composable_deployment_args app secrets deploymentConfig factoryConfig :
  composable (deployment_args app secrets deploymentConfig) factoryConfig
  = composable (deployment_args app None deploymentConfig) factoryConfig.
Proof. reflexivity. Qed.

Lemma defineDeployment_returned_iff a namespace cluster factoryConfig :
  (exists result, fst (defineDeployment a namespace cluster factoryConfig []) = Returned result)
  <-> composable a factoryConfig = true.
Proof.
  destruct (composable a factoryConfig) eqn:Hc.
  - rewrite run_defineDeployment by done. split; [done|by eexists].
  - rewrite defineDeployment_thrown by done. split; [by intros [? ?]|done].
Qed.

Lemma defineApplication_returned app cluster factoryConfig t result :
  let environment := computed_environment app cluster factoryConfig in
  let secrets := secret_reference app environment in
  let namespace := namespace_of app in
  fst (defineApplication app cluster factoryConfig t) = Returned result ->
  snd (defineApplication app cluster factoryConfig t)
  = (t ++ Emitted (namespace_resource namespace cluster)
       :: service_events app cluster factoryConfig
       ++ environment_events app cluster factoryConfig
       ++ secret_events app cluster environment)
    ++ concat (map (fun deploymentConfig =>
                      snd (defineDeployment (deployment_args app secrets deploymentConfig)
                             namespace cluster factoryConfig []))
                   (declared_deployments app))
    ++ (if cicd_requested app
        then snd (defineCICD app namespace cluster factoryConfig [])
        else [])
  /\ Forall (fun deploymentConfig =>
               composable (deployment_args app secrets deploymentConfig) factoryConfig = true)
            (declared_deployments app)
  /\ length (out_deployments result) = length (declared_deployments app)
  /\ (out_cicd result = None <-> app_cicd app = Some false).
Proof.
  intros environment secrets namespace. rewrite defineApplication_unfold.
  fold environment secrets namespace. set (t1 := t ++ _).
  set (f := fun deploymentConfig =>
              defineDeployment (deployment_args app secrets deploymentConfig)
                namespace cluster factoryConfig).
  assert (forall x, oblivious (f x)) as Hf by (intros x; apply oblivious_defineDeployment).
  match goal with |- fst ?x = _ -> _ => destruct x as [o t3] eqn:Hm end.
  cbn [fst snd]. intros ->. unfold bind at 1 in Hm.
  destruct (map_compose f _ t1) as [[ys|msg] t2] eqn:Hrun; [|done].
  pose proof (map_compose_returned_inv f (declared_deployments app) t1 ys Hf) as Hall.
  rewrite Hrun in Hall. specialize (Hall eq_refl).
  destruct (map_compose_returned f _ t1 Hf Hall) as (ys' & Hrun' & Hlen).
  rewrite Hrun in Hrun'. injection Hrun' as -> ->.
  destruct (defineCICD_run app namespace cluster factoryConfig) as [[r Hr] _].
  pose proof (oblivious_defineCICD app namespace cluster factoryConfig) as Hcicd.
  assert (Forall (fun deploymentConfig =>
            composable (deployment_args app secrets deploymentConfig) factoryConfig = true)
            (declared_deployments app)) as Hcomposable.
  { eapply Forall_impl; [exact Hall|]. intros cfg. apply defineDeployment_returned_iff. }
  unfold cicd_requested.
  destruct (app_cicd app) as [[|]|]; unfold bind, ret in Hm;
    try rewrite (Hcicd (t1 ++ _)), Hr in Hm; injection Hm as <- <-;
    cbn [out_deployments out_cicd].
  all: split; [by rewrite <- ?app_assoc, ?app_nil_r|].
  all: split; [done|].
  all: split; [done|].
  all: split; congruence.
Qed.

(** X12: an application is composed only if each of its deployments is
    composable: none asks for ingress without a usable container port or
    without [exposeService] in the context.  And an application that calls
    nothing from outside is composed: one that declares no service, gives
    its environment as a value, has CI/CD switched off or no
    [getDeployServiceAccount] in the context, and none of whose deployments
    asks for ingress. *)
Theorem defineApplication_returns_only_if
    (app : Application) (cluster : Cluster) (factoryConfig : FactoryContext) (t : Trace) :
  let run := defineApplication app cluster factoryConfig t in
  (forall result, fst run = Returned result ->
     Forall (fun deploymentConfig =>
               cfg_ingress deploymentConfig = None
               \/ (opt_truthy num_truthy (cfg_containerPort deploymentConfig) = true
                   /\ is_Some (exposeService factoryConfig)))
            (declared_deployments app))
  /\ (declared_services app = [] ->
      (exists environment, app_environment app = EnvValue environment) ->
      app_cicd app = Some false
      \/ cicd factoryConfig ≫= getDeployServiceAccount = None ->
      Forall (fun deploymentConfig => cfg_ingress deploymentConfig = None)
             (declared_deployments app) ->
      exists result, fst run = Returned result).
Proof.
  intros run. unfold run. split.
  - intros result Hresult.
    destruct (defineApplication_returned app cluster factoryConfig t result Hresult)
      as (_ & Hall & _).
    eapply Forall_impl; [exact Hall|]. intros cfg Hcfg. by apply composable_spec in Hcfg.
  - intros _ _ _ Hall. rewrite defineApplication_unfold.
    set (secrets := secret_reference _ _). set (t1 := t ++ _).
    set (f := fun deploymentConfig =>
                defineDeployment (deployment_args app secrets deploymentConfig)
                  (namespace_of app) cluster factoryConfig).
    assert (forall x, oblivious (f x)) as Hf by (intros x; apply oblivious_defineDeployment).
    assert (Forall (fun x => exists y, fst (f x []) = Returned y) (declared_deployments app))
      as Hreturned.
    { eapply Forall_impl; [exact Hall|]. intros cfg Hcfg. unfold f.
      apply defineDeployment_returned_iff, composable_spec. by left. }
    destruct (map_compose_returned f _ t1 Hf Hreturned) as (ys & Hrun & _).
    unfold bind at 1. rewrite Hrun.
    destruct (defineCICD_run app (namespace_of app) cluster factoryConfig) as [[r Hr] _].
    unfold bind at 1.
    destruct (app_cicd app) as [[|]|]; unfold bind, ret;
      try match goal with
          | |- context [defineCICD ?a ?n ?c ?x ?t'] =>
              rewrite (oblivious_defineCICD a n c x t'), Hr
          end;
      by eexists.
Qed.

Lemma defineApplication_returns_only_if_witness :
  exists result,
    fst (defineApplication static_app sample_cluster bare_context []) = Returned result.
Proof.
  apply (proj2 (defineApplication_returns_only_if static_app sample_cluster
                  bare_context [])).
  - reflexivity.
  - by eexists.
  - by right.
  - apply Forall_cons. split; [reflexivity|apply Forall_nil_2].
Defined.

Lemma appends_deployments app cluster factoryConfig secrets :
  appends deployment_event
    (map_compose
       (fun deploymentConfig =>
          defineDeployment (deployment_args app secrets deploymentConfig)
            (namespace_of app) cluster factoryConfig)
       (declared_deployments app)).
Proof.
  apply appends_map_compose. intros cfg _. apply appends_defineDeployment.
  - by left.
  - intros r Hr. by right.
  - done.
Qed.

(** Without CI/CD, by choice or because a deployment failed, what follows
    the secret bundle is the composition of deployments only. *)
Lemma defineApplication_without_cicd app cluster factoryConfig :
  app_cicd app = Some false
  \/ (exists msg, fst (defineApplication app cluster factoryConfig []) = Thrown msg) ->
  exists events,
    snd (defineApplication app cluster factoryConfig [])
    = Emitted (namespace_resource (namespace_of app) cluster)
        :: service_events app cluster factoryConfig
        ++ environment_events app cluster factoryConfig
        ++ secret_events app cluster (computed_environment app cluster factoryConfig)
        ++ events
    /\ Forall deployment_event events.
Proof.
  rewrite defineApplication_unfold. cbv zeta.
  set (secrets := secret_reference _ _). set (t1 := [] ++ _).
  pose proof (appends_deployments app cluster factoryConfig secrets t1) as (events & Hev & Hall).
  intros Hcase. exists events. split; [|done].
  unfold bind at 1. unfold bind at 1 in Hcase.
  destruct (map_compose _ _ t1) as [[ys|msg] t2] eqn:Hrun; simpl in Hev; subst t2.
  - destruct Hcase as [Hoff|[msg Hthrown]].
    + rewrite Hoff. unfold bind, ret. simpl. unfold t1. simpl. by rewrite <- !app_assoc.
    + exfalso. revert Hthrown.
      destruct (defineCICD_run app (namespace_of app) cluster factoryConfig) as [[r Hr] _].
      pose proof (oblivious_defineCICD app (namespace_of app) cluster factoryConfig) as Hcicd.
      destruct (app_cicd app) as [[|]|]; unfold bind, ret;
        try match goal with
            | |- context [defineCICD ?a ?n ?c ?x ?t'] => rewrite (Hcicd t'), Hr
            end; done.
  - simpl. unfold t1. simpl. by rewrite <- !app_assoc.
Qed.

Lemma deployment_events_facts events :
  Forall deployment_event events ->
  cicd_calls events = []
  /\ forall r, r ∈ emitted events -> kind r = Deployment \/ kind r = HorizontalPodAutoscaler.
Proof.
  induction 1 as [|e events He _ [IH1 IH2]]; [split; [done|by intros r ?%elem_of_nil]|].
  destruct e as [r| | | | ]; try done; unfold emitted in *; simpl.
  split; [done|]. intros r' [->|Hin]%elem_of_cons; auto.
Qed.

Lemma prefix_events_facts app cluster factoryConfig environment events :
  let t := Emitted (namespace_resource (namespace_of app) cluster)
             :: service_events app cluster factoryConfig
             ++ environment_events app cluster factoryConfig
             ++ secret_events app cluster environment
             ++ events in
  cicd_calls t = cicd_calls events
  /\ forall r, r ∈ emitted t ->
       kind r = Namespace \/ kind r = Secret \/ r ∈ emitted events.
Proof.
  intros t. unfold t. split.
  - change (cicd_calls (Emitted ?r :: ?l)) with (cicd_calls l).
    unfold cicd_calls. rewrite !omap_app.
    assert (omap (fun e => match e with
                           | GetDeployServiceAccountInvoked c => Some c
                           | _ => None
                           end) (service_events app cluster factoryConfig) = []) as ->.
    { unfold service_events. by induction (declared_services app). }
    unfold environment_events, secret_events.
    by destruct (app_environment app), (truthy environment).
  - intros r. change (emitted (Emitted ?r :: ?l)) with (r :: emitted l).
    rewrite !emitted_app.
    destruct (calls_of_service_events app cluster factoryConfig) as (_ & _ & ->).
    destruct (calls_of_environment_events app cluster factoryConfig) as (_ & ->).
    simpl. intros [->|Hin]%elem_of_cons; [by left|].
    apply elem_of_app in Hin as [Hin|Hin]; [|by right; right].
    right; left. unfold secret_events in Hin. destruct (truthy environment).
    + by apply list_elem_of_singleton in Hin as ->.
    + by apply elem_of_nil in Hin.
Qed.

(** X13: CI/CD comes after the deployments and is not composed when one of
    them fails: if a declared deployment asks for ingress without a usable
    container port or without [exposeService] in the context, the
    composition returns no result, the service-account callback is not
    called and no role or role binding is emitted, whatever [cicd] says. *)
Theorem defineApplication_failure_skips_cicd
    (app : Application) (cluster : Cluster) (factoryConfig : FactoryContext) :
  Exists (fun deploymentConfig =>
            is_Some (cfg_ingress deploymentConfig)
            /\ (opt_truthy num_truthy (cfg_containerPort deploymentConfig) = false
                \/ exposeService factoryConfig = None))
         (declared_deployments app) ->
  let run := defineApplication app cluster factoryConfig [] in
  (forall result, fst run <> Returned result)
  /\ cicd_calls (snd run) = []
  /\ (forall r, r ∈ emitted (snd run) -> kind r <> Role /\ kind r <> RoleBinding).
Proof.
  intros Hfailing run.
  assert (forall result, fst run <> Returned result) as Hnot.
  { intros result Hresult.
    destruct (defineApplication_returned app cluster factoryConfig [] result Hresult)
      as (_ & Hall & _).
    apply Exists_exists in Hfailing as (cfg & Hin & [ing Hing] & Hmissing).
    rewrite Forall_forall in Hall. specialize (Hall cfg Hin).
    apply composable_spec in Hall. simpl in Hall.
    destruct Hall as [Hnone|[Hport [expose Hexpose]]]; [congruence|].
    destruct Hmissing; congruence. }
  split; [exact Hnot|].
  destruct (defineApplication_without_cicd app cluster factoryConfig)
    as (events & Htrace & Hevents).
  { right. fold run. destruct (fst run) as [result|message] eqn:Hrun; [|by eexists].
    by destruct (Hnot result). }
  fold run in Htrace.
  destruct (deployment_events_facts events Hevents) as [Hcalls Hkinds].
  destruct (prefix_events_facts app cluster factoryConfig
              (computed_environment app cluster factoryConfig) events) as [Hpc Hpk].
  split.
  - rewrite Htrace, Hpc. exact Hcalls.
  - intros r Hin. rewrite Htrace in Hin.
    destruct (Hpk r Hin) as [Hk|[Hk|Hk]]; [by rewrite Hk..|].
    destruct (Hkinds r Hk) as [Hk'|Hk']; by rewrite Hk'.
Qed.

Lemma defineApplication_failure_skips_cicd_witness :
  let run := defineApplication broken_app sample_cluster full_context [] in
  (forall result, fst run <> Returned result)
  /\ cicd_calls (snd run) = []
  /\ (forall r, r ∈ emitted (snd run) -> kind r <> Role /\ kind r <> RoleBinding).
Proof.
  apply (defineApplication_failure_skips_cicd broken_app sample_cluster full_context).
  apply Exists_cons_tl, Exists_cons_hd. split; [by eexists|by left].
Defined.

(** X14: CI/CD is opted out of with [cicd: false] only: the result then has
    no [cicd] entry, the service-account callback is not called and no role
    or role binding is emitted, whatever the context offers; with [cicd] true
    or left out the result has a [cicd] entry. *)
Theorem defineApplication_cicd_opt_out
    (app : Application) (cluster : Cluster) (factoryConfig : FactoryContext) :
  let run := defineApplication app cluster factoryConfig [] in
  (forall result, fst run = Returned result ->
     (out_cicd result = None <-> app_cicd app = Some false))
  /\ (app_cicd app = Some false ->
      cicd_calls (snd run) = []
      /\ forall r, r ∈ emitted (snd run) -> kind r <> Role /\ kind r <> RoleBinding).
Proof.
  intros run. split.
  - intros result Hresult.
    by apply defineApplication_returned in Hresult as (_ & _ & _ & Hcicd).
  - intros Hoff.
    destruct (defineApplication_without_cicd app cluster factoryConfig)
      as (events & Htrace & Hevents); [by left|].
    fold run in Htrace.
    destruct (deployment_events_facts events Hevents) as [Hcalls Hkinds].
    destruct (prefix_events_facts app cluster factoryConfig
                (computed_environment app cluster factoryConfig) events) as [Hpc Hpk].
    split; [rewrite Htrace, Hpc; exact Hcalls|].
    intros r Hin. rewrite Htrace in Hin.
    destruct (Hpk r Hin) as [Hk|[Hk|Hk]]; [by rewrite Hk..|].
    destruct (Hkinds r Hk) as [Hk'|Hk']; by rewrite Hk'.
Qed.

Lemma defineApplication_cicd_opt_out_witness :
  let run := defineApplication quiet_app sample_cluster full_context [] in
  (exists result, fst run = Returned result /\ out_cicd result = None)
  /\ cicd_calls (snd run) = []
  /\ (forall r, r ∈ emitted (snd run) -> kind r <> Role /\ kind r <> RoleBinding).
Proof.
  cbv zeta.
  destruct (defineApplication_cicd_opt_out quiet_app sample_cluster full_context)
    as [Hresult Hoff].
  destruct (Hoff eq_refl) as [Hcalls Hkinds].
  split; [|split; [exact Hcalls|exact Hkinds]].
  eexists. split; [reflexivity|]. by apply (Hresult _ eq_refl).
Defined.

Lemma deployment_emitted_kinds a namespace cluster factoryConfig :
  composable a factoryConfig = true ->
  map kind (emitted (snd (defineDeployment a namespace cluster factoryConfig [])))
  = deployment_kinds a.
Proof.
  intros Hc. rewrite run_defineDeployment by done. cbn [snd app].
  change (emitted (Emitted ?r :: ?l)) with (r :: emitted l). rewrite emitted_app.
  unfold exposure_events, scaler_events, deployment_kinds.
  by destruct (exposed_args_of a namespace), (scaler a).
Qed.

(** X15: the resources of a composed application, by kind and in order: the
    namespace; the secret bundle if the environment is present; for each
    deployment, in the order declared, its workload and then its autoscaler
    if it has a scaler; last the role and role binding if CI/CD is requested
    and the context resolves a deploy identity.  The result lists one entry
    per declared deployment. *)
Theorem defineApplication_resource_kinds
    (app : Application) (cluster : Cluster) (factoryConfig : FactoryContext)
    (result : ApplicationResult) :
  let run := defineApplication app cluster factoryConfig [] in
  fst run = Returned result ->
  map kind (emitted (snd run))
  = Namespace
      :: (if truthy (computed_environment app cluster factoryConfig) then [Secret] else [])
      ++ concat (map (fun deploymentConfig =>
                        Deployment
                          :: match cfg_scaler deploymentConfig with
                             | Some _ => [HorizontalPodAutoscaler]
                             | None => []
                             end)
                     (declared_deployments app))
      ++ (if cicd_requested app then cicd_kinds cluster factoryConfig else [])
  /\ length (out_deployments result) = length (declared_deployments app).
Proof.
  intros run Hresult.
  apply defineApplication_returned in Hresult as (Htrace & Hall & Hlen & _).
  fold run in Htrace. split; [|done]. rewrite Htrace. cbn [Datatypes.app].
  change (emitted (Emitted ?r :: ?l)) with (r :: emitted l).
  rewrite !emitted_app.
  destruct (calls_of_service_events app cluster factoryConfig) as (_ & _ & ->).
  destruct (calls_of_environment_events app cluster factoryConfig) as (_ & ->).
  cbn [Datatypes.app map]. rewrite !map_app. f_equal. f_equal; [|f_equal].
  - unfold secret_events. by destruct (truthy _).
  - clear Htrace Hlen.
    induction Hall as [|cfg cfgs Hcfg _ IH]; [done|]. cbn [map concat].
    rewrite emitted_app, map_app, IH, (deployment_emitted_kinds _ _ _ _ Hcfg).
    reflexivity.
  - destruct (cicd_requested app); [|done].
    apply defineCICD_run.
Qed.

Lemma defineApplication_resource_kinds_witness :
  map kind (emitted (snd (defineApplication (web_app environment_of_services)
                            sample_cluster full_context [])))
  = [Namespace; Secret; Deployment; HorizontalPodAutoscaler; Role; RoleBinding].
Proof.
  destruct (defineApplication (web_app environment_of_services) sample_cluster
              full_context []) as [[result|msg] t] eqn:Hrun;
    [|vm_compute in Hrun; discriminate Hrun].
  pose proof (defineApplication_resource_kinds (web_app environment_of_services)
                sample_cluster full_context result) as H.
  rewrite Hrun in H. exact (proj1 (H eq_refl)).
Defined.

(** ** The services of an application and of the factory *)

Lemma lookup_fold_obj_set {A} (entries acc : list (string * A)) key :
  NoDup (map fst entries) ->
  lookup_key key (fold_left (fun o kv => obj_set (fst kv) (snd kv) o) entries acc)
  = match lookup_key key entries with
    | Some v => Some v
    | None => lookup_key key acc
    end.
Proof.
  revert acc. induction entries as [|[k v] entries IH]; intros acc Hnd; simpl; [done|].
  apply NoDup_cons in Hnd as [Hk Hnd]. rewrite (IH _ Hnd).
  destruct (String.eqb_spec k key) as [->|Hne].
  - apply (lookup_key_None key entries) in Hk. by rewrite Hk, lookup_key_obj_set_eq.
  - destruct (lookup_key key entries); [done|]. by apply lookup_key_obj_set_ne.
Qed.

Lemma lookup_key_map {A B} (g : A -> B) (entries : list (string * A)) key :
  lookup_key key (map (fun kv => (fst kv, g (snd kv))) entries)
  = g <$> lookup_key key entries.
Proof.
  induction entries as [|[k v] entries IH]; simpl; [done|].
  by destruct (String.eqb k key).
Qed.

(** X16: the services map of a composed application has, under each declared
    name, what the constructor declared under that name returned for the
    application's name, namespace, cluster and context, and nothing under any
    other name. *)
Theorem defineApplication_services
    (app : Application) (cluster : Cluster) (factoryConfig : FactoryContext)
    (result : ApplicationResult) (service_name : string) :
  NoDup (map fst (declared_services app)) ->
  fst (defineApplication app cluster factoryConfig []) = Returned result ->
  is_record (out_services result) = true
  /\ lookup_key service_name (own_props (out_services result))
     = (fun service : Service =>
          service {| applicationName := app_name app;
                     svc_namespace := namespace_of app;
                     svc_cluster := cluster;
                     context := factoryConfig |})
       <$> lookup_key service_name (declared_services app).
Proof.
  intros Hnd Hresult.
  apply defineApplication_result in Hresult as (_ & -> & _).
  split; [done|]. unfold resolved_services, fromEntries. cbn [own_props].
  rewrite lookup_fold_obj_set.
  - rewrite (lookup_key_map (fun service : Service =>
                               service (service_args app cluster factoryConfig))).
    by destruct (lookup_key service_name (declared_services app)).
  - rewrite map_map. exact Hnd.
Qed.

Lemma defineApplication_services_witness :
  exists result,
    fst (defineApplication (web_app (EnvValue VUndef)) sample_cluster full_context [])
    = Returned result
    /\ lookup_key "queue" (own_props (out_services result))
       = Some (VObj [("url", VStr "amqp://web")])
    /\ lookup_key "mail" (own_props (out_services result)) = None.
Proof.
  destruct (defineApplication (web_app (EnvValue VUndef)) sample_cluster full_context [])
    as [[result|msg] t] eqn:Hrun; [|vm_compute in Hrun; discriminate Hrun].
  exists result. split; [done|].
  assert (NoDup (map fst (declared_services (web_app (EnvValue VUndef))))) as Hnd.
  { apply (bool_decide_unpack _). vm_compute. exact I. }
  pose proof (fun n => defineApplication_services (web_app (EnvValue VUndef))
                         sample_cluster full_context result n Hnd) as H.
  rewrite Hrun in H.
  split; [exact (proj2 (H "queue" eq_refl))|exact (proj2 (H "mail" eq_refl))].
Defined.

(** X17: the registry of an [ApplicationFactory] holds the caller's
    constructors, one of which named [redis] takes the place of the built-in
    one; under [redis] alone, when the caller gives none, it holds the
    built-in constructor, and under other names nothing. *)
Theorem ApplicationFactory_services_lookup {A : Type}
    (defineRedis : A) (services : option (list (string * A))) (service_name : string) :
  NoDup (map fst (default [] services)) ->
  lookup_key service_name (ApplicationFactory_services defineRedis services)
  = match lookup_key service_name (default [] services) with
    | Some custom => Some custom
    | None => if String.eqb service_name "redis" then Some defineRedis else None
    end.
Proof.
  intros Hnd. unfold ApplicationFactory_services. rewrite lookup_fold_obj_set by done.
  destruct (lookup_key service_name (default [] services)); [done|]. simpl.
  by rewrite String.eqb_sym.
Qed.

Lemma ApplicationFactory_services_lookup_witness :
  lookup_key "redis"
    (ApplicationFactory_services redis_service (Some [("redis", queue_service)]))
  = Some queue_service
  /\ lookup_key "redis" (ApplicationFactory_services redis_service None)
     = Some redis_service.
Proof.
  split.
  - apply (ApplicationFactory_services_lookup redis_service
             (Some [("redis", queue_service)]) "redis").
    apply (bool_decide_unpack _). vm_compute. exact I.
  - apply (ApplicationFactory_services_lookup redis_service None "redis").
    apply NoDup_nil_2.
Defined.

(** ** From the environment to the containers *)

Lemma lookup_deepMerge_default base override key :
  is_record base = true ->
  (absent_or_empty override = true
   \/ exists fields, override = VObj fields /\ NoDup (map fst fields)
                     /\ lookup_key key fields = None) ->
  get (deepMerge base (default_to (VObj []) override)) key = get base key.
Proof.
  intros Hbase [Habsent|(fields & -> & Hnd & Hkey)].
  - by rewrite deepMerge_absent_or_empty.
  - cbn [default_to]. destruct base as [ | | | | | | |bfields]; try done.
    unfold get. by rewrite lookup_deepMerge_absent.
Qed.

(** X18: the secret reference reaches the containers.  When the environment
    is present, the reference handed to the deployments is the name of the
    emitted secret bundle, and a deployment whose [containerOverride] does
    not set [envFrom] and whose [deploymentOverride] is absent or empty runs
    its container with that bundle as [envFrom]. *)
Theorem secret_reaches_container
    (app : Application) (cluster : Cluster) (factoryConfig : FactoryContext)
    (deploymentConfig : DeploymentConfig) :
  let environment := computed_environment app cluster factoryConfig in
  let secrets := secret_reference app environment in
  truthy environment = true ->
  (absent_or_empty (cfg_containerOverride deploymentConfig) = true
   \/ exists fields,
        cfg_containerOverride deploymentConfig = VObj fields
        /\ NoDup (map fst fields) /\ lookup_key "envFrom" fields = None) ->
  absent_or_empty (cfg_deploymentOverride deploymentConfig) = true ->
  exists reference,
    secrets = Some reference
    /\ get_path (args (secret_resource app cluster environment)) ["metadata"; "name"]
       = VStr reference
    /\ get_path
         (args (deployment_resource (deployment_args app secrets deploymentConfig)
                  (namespace_of app) cluster))
         ["spec"; "template"; "spec"; "containers"; "0"; "envFrom"]
       = VArr [VObj [("secretRef", VObj [("name", VStr reference)])]].
Proof.
  intros environment secrets Henv Hcontainer Hdeployment.
  exists ("for-" +:+ app_name app). unfold secrets, secret_reference. rewrite Henv.
  split; [done|]. split; [done|].
  cbn [args deployment_resource]. unfold finalDeployment.
  rewrite (deepMerge_absent_or_empty (baseDeployment _ _ _)) by done.
  remember (deepMerge (baseContainer (deployment_args app
                                        (Some ("for-" +:+ app_name app)) deploymentConfig))
              (default_to (VObj [])
                 (containerOverride (deployment_args app
                                       (Some ("for-" +:+ app_name app)) deploymentConfig))))
    as container eqn:Hcontainer_eq.
  change (get_path (baseDeployment ?a ?n container) ?p) with (get container "envFrom").
  subst container. cbn [containerOverride deployment_args].
  rewrite (lookup_deepMerge_default (baseContainer _) _ "envFrom") by done.
  reflexivity.
Qed.

Lemma secret_reaches_container_witness :
  exists reference,
    secret_reference (web_app environment_of_services)
      (computed_environment (web_app environment_of_services) sample_cluster full_context)
    = Some reference
    /\ reference = "for-web"
    /\ get_path
         (args (deployment_resource
                  (deployment_args (web_app environment_of_services) (Some reference)
                     api_config)
                  "web" sample_cluster))
         ["spec"; "template"; "spec"; "containers"; "0"; "envFrom"]
       = VArr [VObj [("secretRef", VObj [("name", VStr reference)])]].
Proof.
  destruct (secret_reaches_container (web_app environment_of_services) sample_cluster
              full_context api_config eq_refl (or_introl eq_refl) eq_refl)
    as (reference & Href & _ & Hcontainer).
  exists reference. split; [exact Href|].
  assert (reference = "for-web") as -> by (by injection Href).
  split; [reflexivity|exact Hcontainer].
Defined.

(** ** The first failing deployment ends the composition *)

Lemma map_compose_stops {A B} (f : A -> Compose B) pre bad post t msg :
  (forall x, oblivious (f x)) ->
  Forall (fun x => exists y, fst (f x []) = Returned y) pre ->
  fst (f bad []) = Thrown msg ->
  map_compose f (pre ++ bad :: post) t
  = (Thrown msg, t ++ concat (map (fun x => snd (f x [])) pre) ++ snd (f bad [])).
Proof.
  intros Hf Hpre Hbad. revert t.
  induction Hpre as [|x pre [y Hy] _ IH]; intros t; simpl.
  - unfold bind at 1. by rewrite (Hf bad t), Hbad.
  - unfold bind at 1. rewrite (Hf x t), Hy. unfold bind at 1. rewrite IH.
    by rewrite <- !app_assoc.
Qed.

Lemma bind_thrown {A B} (m : Compose A) (k : A -> Compose B) t msg :
  fst (m t) = Thrown msg -> bind m k t = (Thrown msg, snd (m t)).
Proof. unfold bind. destruct (m t) as [[x|e] t']; simpl; congruence. Qed.

Lemma defineDeployment_thrown_kinds a namespace cluster factoryConfig :
  composable a factoryConfig = false ->
  map kind (emitted (snd (defineDeployment a namespace cluster factoryConfig [])))
  = if opt_truthy num_truthy (containerPort a) then [Deployment] else [].
Proof.
  unfold composable, defineDeployment, opt_truthy, bind, emit, record_event, ret, throw.
  destruct (ingress a) as [ing|]; [|done].
  destruct (containerPort a) as [port|]; simpl; [|done].
  destruct (num_truthy port); simpl; [|done].
  destruct (exposeService factoryConfig); [|done].
  intros H. apply bool_decide_eq_false in H. destruct H. by eexists.
Qed.

(** X19: deployments are composed in the order declared and the first one
    that cannot be composed ends the composition with its error: the
    deployments before it have emitted their resources, which stay; the
    failing one has emitted its workload if its port was usable and only
    [exposeService] was missing, and nothing otherwise; the deployments after
    it and CI/CD are not composed. *)
Theorem defineApplication_first_failure
    (app : Application) (cluster : Cluster) (factoryConfig : FactoryContext)
    (before after : list DeploymentConfig) (failing : DeploymentConfig) :
  declared_deployments app = before ++ failing :: after ->
  Forall (fun deploymentConfig =>
            cfg_ingress deploymentConfig = None
            \/ (opt_truthy num_truthy (cfg_containerPort deploymentConfig) = true
                /\ is_Some (exposeService factoryConfig)))
         before ->
  is_Some (cfg_ingress failing) ->
  opt_truthy num_truthy (cfg_containerPort failing) = false
  \/ exposeService factoryConfig = None ->
  let run := defineApplication app cluster factoryConfig [] in
  let n := default (app_name app) (cfg_name failing) in
  fst run
  = Thrown (if opt_truthy num_truthy (cfg_containerPort failing)
            then missing_exposeService_error n
            else missing_port_error n)
  /\ map kind (emitted (snd run))
     = Namespace
         :: (if truthy (computed_environment app cluster factoryConfig)
             then [Secret] else [])
         ++ concat (map (fun deploymentConfig =>
                           Deployment
                             :: match cfg_scaler deploymentConfig with
                                | Some _ => [HorizontalPodAutoscaler]
                                | None => []
                                end)
                        before)
         ++ (if opt_truthy num_truthy (cfg_containerPort failing)
             then [Deployment] else []).
Proof.
  intros Hdeclared Hbefore Hingress Hfailing run n. unfold run.
  rewrite defineApplication_unfold. cbv zeta.
  set (secrets := secret_reference _ _).
  set (f := fun deploymentConfig =>
              defineDeployment (deployment_args app secrets deploymentConfig)
                (namespace_of app) cluster factoryConfig).
  assert (forall x, oblivious (f x)) as Hf by (intros x; apply oblivious_defineDeployment).
  assert (composable (deployment_args app secrets failing) factoryConfig = false) as Hbad.
  { unfold composable. simpl. destruct Hingress as [ing ->].
    destruct Hfailing as [-> | ->]; [done|]. by rewrite andb_false_r. }
  assert (Forall (fun cfg =>
            composable (deployment_args app secrets cfg) factoryConfig = true) before)
    as Hcomposable.
  { eapply Forall_impl; [exact Hbefore|]. intros cfg H. by apply composable_spec. }
  assert (Forall (fun cfg => exists y, fst (f cfg []) = Returned y) before) as Hreturned.
  { eapply Forall_impl; [exact Hcomposable|]. intros cfg H.
    by apply defineDeployment_returned_iff. }
  pose proof (defineDeployment_thrown _ (namespace_of app) cluster _ [] Hbad) as Hthrown.
  rewrite Hdeclared.
  pose proof (map_compose_stops f before failing after
                (Emitted (namespace_resource (namespace_of app) cluster)
                 :: service_events app cluster factoryConfig
                 ++ environment_events app cluster factoryConfig
                 ++ secret_events app cluster
                      (computed_environment app cluster factoryConfig))
                _ Hf Hreturned Hthrown) as Hstops.
  rewrite (bind_thrown _ _ _ _ (f_equal fst Hstops)), Hstops.
  cbn [fst snd]. split; [done|]. cbn [Datatypes.app].
  change (emitted (Emitted ?r :: ?l)) with (r :: emitted l).
  rewrite !emitted_app.
  destruct (calls_of_service_events app cluster factoryConfig) as (_ & _ & ->).
  destruct (calls_of_environment_events app cluster factoryConfig) as (_ & ->).
  cbn [Datatypes.app map]. rewrite !map_app. f_equal. f_equal; [|f_equal].
  - unfold secret_events. by destruct (truthy _).
  - clear Hbefore Hdeclared Hreturned Hstops. unfold f.
    induction Hcomposable as [|cfg cfgs Hcfg _ IH]; [done|]. cbn [map concat].
    rewrite emitted_app, map_app, IH, (deployment_emitted_kinds _ _ _ _ Hcfg).
    reflexivity.
  - unfold f. by rewrite defineDeployment_thrown_kinds.
Qed.

Lemma defineApplication_first_failure_witness :
  let run := defineApplication broken_app sample_cluster full_context [] in
  fst run = Thrown "Container port must be defined when using ingress for application worker"
  /\ map kind (emitted (snd run)) = [Namespace; Deployment; HorizontalPodAutoscaler].
Proof.
  apply (defineApplication_first_failure broken_app sample_cluster full_context
           [api_config] [api_config] broken_config).
  - reflexivity.
  - apply Forall_cons. split; [|apply Forall_nil_2].
    right. split; [reflexivity|by eexists].
  - by eexists.
  - by left.
Defined.

(** ** One namespace per application *)

Lemma in_namespace_defineDeployment a namespace cluster factoryConfig :
  absent_or_empty (deploymentOverride a) = true ->
  appends (in_namespace namespace) (defineDeployment a namespace cluster factoryConfig).
Proof.
  intros Hoverride. unfold defineDeployment, defineScaler, emit.
  repeat appends_step; try done.
  split; [done|]. unfold deployment_resource, finalDeployment. cbn [args].
  by rewrite deepMerge_absent_or_empty.
Qed.

Lemma in_namespace_defineCICD app namespace cluster factoryConfig :
  appends (in_namespace namespace) (defineCICD app namespace cluster factoryConfig).
Proof. unfold defineCICD, emit. repeat appends_step; done. Qed.

(** X20: the namespace of an application is [app.namespace], or [app.name]
    when that is absent or the empty string.  The first thing a composition
    does is to declare that namespace; it declares no other, and when no
    deployment overrides its manifest everything that follows stays in it:
    service factories are called for it, services are exposed in it, and the
    secret bundle, workloads, autoscalers, role and binding are placed in
    it. *)
Theorem defineApplication_namespace
    (app : Application) (cluster : Cluster) (factoryConfig : FactoryContext) :
  Forall (fun deploymentConfig =>
            absent_or_empty (cfg_deploymentOverride deploymentConfig) = true)
         (declared_deployments app) ->
  let ns := match app_namespace app with
            | Some (String c s) => String c s
            | Some EmptyString | None => app_name app
            end in
  exists later,
    snd (defineApplication app cluster factoryConfig [])
    = Emitted {| kind := Namespace;
                 logical_name := ns;
                 args := VObj [("metadata", VObj [("name", VStr ns)])];
                 res_provider := provider cluster;
                 ignoreChanges := [] |}
        :: later
    /\ Forall (in_namespace ns) later.
Proof.
  intros Hoverrides ns.
  assert (namespace_of app = ns) as Hns.
  { unfold namespace_of, ns. by destruct (app_namespace app) as [[|c s]|]. }
  rewrite defineApplication_unfold. cbv zeta. rewrite Hns.
  set (secrets := secret_reference _ _).
  match goal with
  | |- context [snd (?m (?t0 ++ ?e :: ?prefix))] =>
      assert (appends (in_namespace ns) m) as Hm; [|destruct (Hm (t0 ++ e :: prefix))
        as (events & -> & Hevents); exists (prefix ++ events)]
  end.
  - repeat appends_step; try done.
    + apply appends_map_compose. intros deploymentConfig Hin.
      apply in_namespace_defineDeployment.
      rewrite Forall_forall in Hoverrides. by apply Hoverrides.
    + apply in_namespace_defineCICD.
    + apply in_namespace_defineCICD.
  - split; [done|]. rewrite !Forall_app. repeat split; [| | |done].
    + unfold service_events. rewrite Forall_map. rewrite Forall_forall.
      intros [name service] _. exact Hns.
    + unfold environment_events. destruct (app_environment app); by repeat constructor.
    + unfold secret_events. destruct (truthy _); [|done].
      constructor; [|done]. split; [done|]. simpl. by rewrite Hns.
Qed.

Lemma defineApplication_namespace_witness :
  exists later,
    snd (defineApplication quiet_app sample_cluster bare_context [])
    = Emitted {| kind := Namespace;
                 logical_name := app_name quiet_app;
                 args := VObj [("metadata", VObj [("name", VStr (app_name quiet_app))])];
                 res_provider := provider sample_cluster;
                 ignoreChanges := [] |}
        :: later
    /\ Forall (in_namespace (app_name quiet_app)) later.
Proof.
  apply (defineApplication_namespace quiet_app sample_cluster bare_context).
  vm_compute. repeat constructor.
Defined.
